(** * hear-calm-speak: detection-to-alert pipeline

    A shallow embedding of the crowd-monitoring core of the repository:

    - [src/components/WebcamDetector.tsx], the body of [detect]: shape
      filter, adult/child classifier, identity tracker, behaviour
      heuristics and occupancy counters;
    - [src/pages/Index.tsx], [handleAlert]: the rolling alert log; the
      chart and history buffers filled by the two intervals;
    - [hooks/useVoiceAlert]: the cooldown table and the single-flight
      announcement queue, with cancelling and the voice switch;
    - [StatsPanel], [CrowdChart], [CrowdHistory]: what the panels compute
      from the log and the buffers.

    Modelling conventions.

    - JavaScript numbers that hold counts, array lengths and millisecond
      clock readings are integers ([Z], or [nat] for an index).
    - JavaScript numbers that hold scores and pixel geometry are exact
      rationals ([Q]).  [Math.hypot] is compared through its square: for
      non-negative reals [d < e] iff [d*d < e*e], so [dist < 150] reads
      [dist2 < 22500] and the running minimum keeps a squared distance
      ([None] stands for [Infinity]).  Rounding of IEEE doubles is not
      modelled.
    - A JavaScript string that carries arbitrary text (an alert message) is
      the list of its UTF-16 code units.  Class labels and the keys of the
      identity map are ASCII by construction and are [string]s.
    - React refs and state cells are fields of explicit state records; a
      callback is a function from state to state. *)

From Stdlib Require Import ZArith QArith Qround Lia Lqa.
From stdpp Require Import gmap strings list fin_maps pretty.

(** ** JavaScript values *)

Module Js.

(** A string as its UTF-16 code units. *)
Definition jsstring : Type := list N.

(** An ASCII literal as a JavaScript string. *)
Definition js (s : string) : jsstring :=
  List.map Ascii.N_of_ascii (String.list_ascii_of_string s).

(** Strict and non-strict comparisons on numbers. *)
Definition Qltb (x y : Q) : bool :=
  match (x ?= y)%Q with Lt => true | _ => false end.
Definition Qgtb (x y : Q) : bool := Qltb y x.
Definition Qleb (x y : Q) : bool := Qle_bool x y.
Definition Qgeb (x y : Q) : bool := Qle_bool y x.

(** [x || 1] on a number: [1] when [x] is zero. *)
Definition orOne (x : Q) : Q := if Qeq_bool x 0 then 1%Q else x.

(** [Math.min]. *)
Definition Qmin (x y : Q) : Q := if Qle_bool x y then x else y.

(** [l.slice(-n)]: the last [n] elements. *)
Definition sliceLast {A} (n : nat) (l : list A) : list A :=
  drop (length l - n) l.

End Js.
Import Js.

(** ** Detections and per-frame classification *)

Module Detection.

(** [bbox: [x, y, w, h]] in pixels. *)
Record BBox := { bx : Q; by_ : Q; bw : Q; bh : Q }.

(** [cocoSsd.DetectedObject]. *)
Record DetectedObject := { class : string; score : Q; bbox : BBox }.

Record PersonDetection := { obj : DetectedObject; isChild : bool }.

(** Shadow and noise rejection. *)
Definition isRealPerson (frameArea : Q) (b : BBox) : bool :=
  let w := bw b in
  let h := bh b in
  let aspectRatio := (h / orOne w)%Q in
  let areaRatio := ((w * h) / orOne frameArea)%Q in
  let minDim := Qmin w h in
  if Qltb aspectRatio 0.55 then false
  else if Qgtb areaRatio 0.70 then false
  else if Qltb minDim 25 then false
  else true.

(** [predictions.filter(p => p.class === "person" && p.score > 0.40)]. *)
Definition rawPeople (predictions : list DetectedObject) : list DetectedObject :=
  List.filter (λ p, String.eqb (class p) "person" && Qgtb (score p) 0.40)
              predictions.

(** The body of the [.map] callback; [None] is the [null] it returns. *)
Definition classifyOne (frameArea : Q) (p : DetectedObject) : option PersonDetection :=
  let w := bw (bbox p) in
  let h := bh (bbox p) in
  let areaRatio := ((w * h) / orOne frameArea)%Q in
  let isChild :=
    Qltb (score p) 0.60 && Qltb areaRatio 0.12 && Qgtb (h / orOne w)%Q 0.85 in
  if negb isChild && Qltb (score p) 0.50 then None
  else Some {| obj := p; isChild := isChild |}.

(** [rawPeople.filter(isRealPerson).map(...).filter(Boolean)]. *)
Definition classified (frameArea : Q) (predictions : list DetectedObject)
  : list PersonDetection :=
  omap (classifyOne frameArea)
       (List.filter (λ p, isRealPerson frameArea (bbox p)) (rawPeople predictions)).

Definition people (cl : list PersonDetection) : list DetectedObject :=
  List.map obj cl.

End Detection.
Import Detection.

(** ** Candidate alerts *)

Module Alerts.

Inductive Severity := info | warning | danger.

(** The two arguments of an [onAlert] call. *)
Record Alert := { alertMessage : jsstring; alertSeverity : Severity }.

(** U+2014, the dash of the three behaviour messages. *)
Definition emDash : N := 8212%N.

Definition fallAlert : Alert :=
  {| alertMessage := js "FALL DETECTED " ++ [emDash] ++ js " Person may have fallen down!";
     alertSeverity := danger |}.

Definition altercationAlert : Alert :=
  {| alertMessage := js "PHYSICAL ALTERCATION " ++ [emDash] ++ js " Possible fight detected!";
     alertSeverity := danger |}.

Definition rushAlert : Alert :=
  {| alertMessage := js "SUDDEN RUSH " ++ [emDash] ++ js " Rapid crowd increase detected!";
     alertSeverity := warning |}.

Definition animalAlert (class : string) : Alert :=
  {| alertMessage := js ("Animal detected: " +:+ class); alertSeverity := warning |}.

Definition overcrowdingAlert (currentCount : Z) : Alert :=
  {| alertMessage := js ("Overcrowding alert! " +:+ pretty currentCount +:+ " people detected!");
     alertSeverity := danger |}.

End Alerts.
Import Alerts.

(** ** Identity tracker and fall heuristic *)

Module Tracker.

(** One stored observation, [[cx, cy, w, h]]. *)
Record Position := { pcx : Q; pcy : Q; pw : Q; ph : Q }.

(** A value of [personHistoryRef]'s map. *)
Record HistoryEntry := { positions : list Position; firstSeen : Z }.

(** [arr.forEach((x, i) => ...)] with the loop state threaded through. *)
Fixpoint forEachFrom {A St : Type} (body : nat → A → St → St)
         (i : nat) (l : list A) (s : St) : St :=
  match l with
  | [] => s
  | x :: l' => forEachFrom body (S i) l' (body i x s)
  end.

Definition forEach {A St : Type} (body : nat → A → St → St) (l : list A) (s : St) : St :=
  forEachFrom body 0 l s.

(** [[bbox[0] + bbox[2] / 2, bbox[1] + bbox[3] / 2]]. *)
Definition center (b : BBox) : Q * Q :=
  ((bx b + bw b / 2)%Q, (by_ b + bh b / 2)%Q).

(** Square of [Math.hypot(cx - px, cy - py)]. *)
Definition dist2 (cx cy px py : Q) : Q :=
  ((cx - px) * (cx - px) + (cy - py) * (cy - py))%Q.

(** [dist < bestDist], with [None] for the initial [Infinity]. *)
Definition belowBest (d : Q) (bestDist : option Q) : bool :=
  match bestDist with
  | None => true
  | Some b => Qltb d b
  end.

(** Body of the inner [prevBboxes.forEach]; the loop state is
    [(bestDist, bestKey)]. *)
Definition scanPrev (matched : gset nat) (cx cy : Q)
           (pi : nat) (pbox : BBox) (best : option Q * string) : option Q * string :=
  if decide (pi ∈ matched) then best
  else
    let '(px, py) := center pbox in
    let dist := dist2 cx cy px py in
    if belowBest dist best.1 && Qltb dist 22500
    then (Some dist, "person_" +:+ pretty pi)
    else best.

(** The inner loop, from [bestDist = Infinity] and [bestKey = ""]. *)
Definition nearestPrev (prevBboxes : list BBox) (matched : gset nat) (cx cy : Q)
  : option Q * string :=
  forEach (scanPrev matched cx cy) prevBboxes (None, "").

(** [bestKey || `person_new_${now}_${ci}`]: the empty string is falsy. *)
Definition detectionKey (now : Z) (prevBboxes : list BBox) (matched : gset nat)
           (ci : nat) (b : BBox) : string :=
  let '(cx, cy) := center b in
  let bestKey := (nearestPrev prevBboxes matched cx cy).2 in
  if String.eqb bestKey "" then "person_new_" +:+ pretty now +:+ "_" +:+ pretty ci
  else bestKey.

(** [positions.push(p); if (positions.length > 30) positions.shift()]. *)
Definition pushPosition (ps : list Position) (p : Position) : list Position :=
  let ps' := ps ++ [p] in
  if Nat.ltb 30 (length ps') then tail ps' else ps'.

(** [p[3] / (p[2] || 1)]. *)
Definition heightRatio (p : Position) : Q := (ph p / orOne (pw p))%Q.

(** The fall check on the history just appended to.  Comparing
    [undefined] is false, hence the empty result on a missing ratio. *)
Definition fallAlerts (ps : list Position) : list Alert :=
  if Nat.ltb 5 (length ps) then
    let recent := sliceLast 5 ps in
    let heightRatios := List.map heightRatio recent in
    match head heightRatios, last heightRatios with
    | Some r0, Some rl =>
        if Qgtb r0 1.3 && Qltb rl 0.9 then [fallAlert] else []
    | _, _ => []
    end
  else [].

(** Body of the outer [currentBboxes.forEach]; the loop state is the
    history map and the alerts raised so far.  The entry object is shared
    with the map, so the push is written back under the same key. *)
Definition trackOne (now : Z) (prevBboxes : list BBox) (matched : gset nat)
           (ci : nat) (b : BBox)
           (st : gmap string HistoryEntry * list Alert)
  : gmap string HistoryEntry * list Alert :=
  let '(history, alerts) := st in
  let '(cx, cy) := center b in
  let key := detectionKey now prevBboxes matched ci b in
  let history1 :=
    if decide (is_Some (history !! key)) then history
    else <[key := {| positions := []; firstSeen := now |}]> history in
  match history1 !! key with
  | None => (history1, alerts)
  | Some entry =>
      let entry' :=
        {| positions :=
             pushPosition (positions entry)
                          {| pcx := cx; pcy := cy; pw := bw b; ph := bh b |};
           firstSeen := firstSeen entry |} in
      (<[key := entry']> history1, alerts ++ fallAlerts (positions entry'))
  end.

(** The tracker loop of one frame.  [matched] is created empty and the
    source never adds to it. *)
Definition trackFrame (now : Z) (prevBboxes currentBboxes : list BBox)
           (history : gmap string HistoryEntry)
  : gmap string HistoryEntry * list Alert :=
  let matched : gset nat := ∅ in
  forEach (trackOne now prevBboxes matched) currentBboxes (history, []).

(** The key each current detection is filed under, in detection order. *)
Definition assignments (now : Z) (prevBboxes currentBboxes : list BBox) : list string :=
  let matched : gset nat := ∅ in
  imap (λ ci b, detectionKey now prevBboxes matched ci b) currentBboxes.

(** [now - val.firstSeen > 60000 && val.positions.length < 2]. *)
Definition stale (now : Z) (val : HistoryEntry) : bool :=
  (60000 <? now - firstSeen val)%Z && Nat.ltb (length (positions val)) 2.

(** The eviction loop: every stale entry is deleted. *)
Definition sweep (now : Z) (history : gmap string HistoryEntry)
  : gmap string HistoryEntry :=
  filter (λ kv, stale now kv.2 = false) history.

(** Derived forms used to state what one loop iteration does. *)

(** The observation stored for a box. *)
Definition observed (b : BBox) : Position :=
  {| pcx := (center b).1; pcy := (center b).2; pw := bw b; ph := bh b |}.

(** The entry a detection is appended to: the one under its key, or a
    fresh one first seen now. *)
Definition entryOrNew (now : Z) (o : option HistoryEntry) : HistoryEntry :=
  default {| positions := []; firstSeen := now |} o.

(** That entry after the append. *)
Definition appended (now : Z) (b : BBox) (o : option HistoryEntry) : HistoryEntry :=
  {| positions := pushPosition (positions (entryOrNew now o)) (observed b);
     firstSeen := firstSeen (entryOrNew now o) |}.

(** The fall condition on a history: more than five positions, upright at
    the first of the last five and flattened at the last. *)
Definition fallen (ps : list Position) : Prop :=
  5 < length ps
  ∧ ∃ p0 p4, sliceLast 5 ps !! 0 = Some p0 ∧ last ps = Some p4
             ∧ (1.3 < heightRatio p0)%Q ∧ (heightRatio p4 < 0.9)%Q.

(** What the inner loop computes, stated on the boxes scanned so far. *)

(** Squared distance from a point to the centre of a box. *)
Definition centreDist2 (cx cy : Q) (pbox : BBox) : Q :=
  dist2 cx cy (center pbox).1 (center pbox).2.

(** A previous box the detection at [(cx, cy)] may be matched to: not
    marked as matched, and closer than 150 px. *)
Definition candidate (matched : gset nat) (cx cy : Q) (pi : nat) (pbox : BBox) : Prop :=
  (pi ∉ matched) ∧ (centreDist2 cx cy pbox < 22500)%Q.

(** The loop state names the nearest candidate among [prev], the first
    one among equally near ones, or nothing when there is no candidate. *)
Definition nearestAmong (matched : gset nat) (cx cy : Q) (prev : list BBox)
           (best : option Q * string) : Prop :=
  match best.1 with
  | None =>
      best.2 = "" ∧ ∀ pj pbox, prev !! pj = Some pbox → ¬ candidate matched cx cy pj pbox
  | Some d =>
      ∃ pi pbox,
        prev !! pi = Some pbox ∧ candidate matched cx cy pi pbox
        ∧ best.2 = "person_" +:+ pretty pi ∧ d = centreDist2 cx cy pbox
        ∧ (∀ pj pbox', prev !! pj = Some pbox' → candidate matched cx cy pj pbox' →
                       (d <= centreDist2 cx cy pbox')%Q)
        ∧ (∀ pj pbox', pj < pi → prev !! pj = Some pbox' →
                       candidate matched cx cy pj pbox' →
                       (d < centreDist2 cx cy pbox')%Q)
  end.


(** An identity with at least two positions, first seen at [fs], is in the
    map. *)
Definition established (k : string) (fs : Z) (h : gmap string HistoryEntry) : Prop :=
  ∃ e, h !! k = Some e ∧ 2 ≤ length (positions e) ∧ firstSeen e = fs.

End Tracker.
Import Tracker.

(** ** Occupancy counters *)

Module Occupancy.

(** [DetectionStats]. *)
Record DetectionStats := {
  currentCount : Z;
  totalIn : Z;
  totalOut : Z;
  peakCount : Z;
  detections : list DetectedObject;
  childCount : Z;
  adultCount : Z
}.

(** The initial value of [statsRef]. *)
Definition initialStats : DetectionStats :=
  {| currentCount := 0; totalIn := 0; totalOut := 0; peakCount := 0;
     detections := []; childCount := 0; adultCount := 0 |}.

(** The counter block at the end of [detect]; the state is
    [(statsRef.current, prevCountRef.current)]. *)
Definition updateStats (cl : list PersonDetection) (st : DetectionStats * Z)
  : DetectionStats * Z :=
  let '(stats, prevCount) := st in
  let currentCount := Z.of_nat (length (people cl)) in
  let childCount := Z.of_nat (length (List.filter isChild cl)) in
  let adultCount := (currentCount - childCount)%Z in
  let totalIn' :=
    if (prevCount <? currentCount)%Z
    then (totalIn stats + (currentCount - prevCount))%Z
    else totalIn stats in
  let totalOut' :=
    if (prevCount <? currentCount)%Z then totalOut stats
    else if (currentCount <? prevCount)%Z && (0 <? prevCount)%Z
         then (totalOut stats + (prevCount - currentCount))%Z
         else totalOut stats in
  let peakCount' :=
    if (peakCount stats <? currentCount)%Z then currentCount else peakCount stats in
  ({| currentCount := currentCount;
      totalIn := totalIn';
      totalOut := totalOut';
      peakCount := peakCount';
      detections := people cl;
      childCount := childCount;
      adultCount := adultCount |},
   currentCount).

(** The counters after a run of frames, from the initial refs. *)
Definition replay (frames : list (list PersonDetection)) : DetectionStats * Z :=
  foldl (λ st cl, updateStats cl st) (initialStats, 0%Z) frames.

End Occupancy.
Import Occupancy.

(** The delta rule in the specification's words, on bare counts. *)

Module OccupancySpec.

Record Tally := { tIn : Z; tOut : Z; tPeak : Z; tCurrent : Z }.

(** One frame with count [c], the previous frame's count being the
    tally's current value [p]: if [c > p] then [totalIn += c - p]; else if
    [c < p] and [p > 0] then [totalOut += p - c]; [currentCount = c];
    [peakCount = max(peakCount, c)]. *)
Definition deltaStep (t : Tally) (c : Z) : Tally :=
  let p := tCurrent t in
  {| tIn := if decide (c > p)%Z then (tIn t + (c - p))%Z else tIn t;
     tOut := if decide (c > p)%Z then tOut t
             else if decide (c < p ∧ p > 0)%Z then (tOut t + (p - c))%Z
                  else tOut t;
     tPeak := Z.max (tPeak t) c;
     tCurrent := c |}.

Definition deltaRule (counts : list Z) : Tally :=
  foldl deltaStep {| tIn := 0; tOut := 0; tPeak := 0; tCurrent := 0 |} counts.

(** Closed forms: the rises and the drops between consecutive counts,
    the first count being compared with [p]. *)
Fixpoint rises (p : Z) (counts : list Z) : Z :=
  match counts with
  | [] => 0
  | c :: rest => (Z.max 0 (c - p) + rises c rest)%Z
  end.

Fixpoint drops (p : Z) (counts : list Z) : Z :=
  match counts with
  | [] => 0
  | c :: rest => (Z.max 0 (p - c) + drops c rest)%Z
  end.

Definition highest (counts : list Z) : Z := foldr Z.max 0%Z counts.

(** The count a frame contributes. *)
Definition frameCount (cl : list PersonDetection) : Z := Z.of_nat (length cl).

(** The code's counters and the tally of the rule agree, field by field. *)
Definition agrees (st : DetectionStats * Z) (t : Tally) : Prop :=
  (totalIn st.1 = tIn t ∧ totalOut st.1 = tOut t ∧ peakCount st.1 = tPeak t
   ∧ currentCount st.1 = tCurrent t ∧ st.2 = tCurrent t)%Z.

(** A detection used to build sample frames. *)
Definition samplePerson : PersonDetection :=
  {| obj := {| class := "person"; score := 0.9;
               bbox := {| bx := 0; by_ := 0; bw := 50; bh := 100 |} |};
     isChild := false |}.

(** A small, low-confidence, upright detection: a child. *)
Definition sampleChild : PersonDetection :=
  {| obj := {| class := "person"; score := 0.55;
               bbox := {| bx := 200; by_ := 100; bw := 60; bh := 120 |} |};
     isChild := true |}.

(** A person-shaped detection below the adult bar that is too large for a
    child: dropped by the classifier. *)
Definition sampleFaint : DetectedObject :=
  {| class := "person"; score := 0.45;
     bbox := {| bx := 0; by_ := 0; bw := 300; bh := 400 |} |}.

End OccupancySpec.
Import OccupancySpec.

(** ** One detection cycle *)

Module Detector.

(** The refs that survive from one call of [detect] to the next. *)
Record DetectorState := {
  statsRef : DetectionStats;
  prevCountRef : Z;
  personHistoryRef : gmap string HistoryEntry;
  prevBboxRef : list BBox
}.

Definition initialState : DetectorState :=
  {| statsRef := initialStats; prevCountRef := 0;
     personHistoryRef := ∅; prevBboxRef := [] |}.

(** What one cycle reads from outside: the clock, the canvas size and the
    model's predictions. *)
Record Frame := {
  now : Z;
  canvasWidth : Z;
  canvasHeight : Z;
  predictions : list DetectedObject
}.

(** [dist < (aw + bw) / 2 * 0.5] for the centres of two boxes; a distance
    is never below a non-positive bound. *)
Definition tooClose (a b : DetectedObject) : bool :=
  let '(acx, acy) := center (bbox a) in
  let '(bcx, bcy) := center (bbox b) in
  let bound := ((bw (bbox a) + bw (bbox b)) / 2 * 0.5)%Q in
  Qltb 0 bound && Qltb (dist2 acx acy bcx bcy) (bound * bound)%Q.

(** The double loop over [i < j]. *)
Fixpoint altercationPairs (ppl : list DetectedObject) : list Alert :=
  match ppl with
  | [] => []
  | a :: rest =>
      flat_map (λ b, if tooClose a b then [altercationAlert] else []) rest
      ++ altercationPairs rest
  end.

Definition altercationAlerts (ppl : list DetectedObject) : list Alert :=
  if Nat.leb 2 (length ppl) then altercationPairs ppl else [].

Definition rushAlerts (ppl : list DetectedObject) (prevCount : Z) : list Alert :=
  if (prevCount + 3 <? Z.of_nat (length ppl))%Z then [rushAlert] else [].

Definition isAnimal (p : DetectedObject) : bool :=
  bool_decide (class p ∈ ["dog"; "cat"; "bird"; "horse"]) && Qgtb (score p) 0.45.

Definition animalAlerts (predictions : list DetectedObject) : list Alert :=
  List.map (λ animal, animalAlert (class animal)) (List.filter isAnimal predictions).

Definition overcrowdingAlerts (currentCount : Z) : list Alert :=
  if (8 <? currentCount)%Z then [overcrowdingAlert currentCount] else [].

(** The body of [detect] from the predictions on, without the drawing:
    the new refs and the [onAlert] calls in the order they are made. *)
Definition detect (f : Frame) (st : DetectorState) : DetectorState * list Alert :=
  let frameArea := inject_Z (canvasWidth f * canvasHeight f) in
  let cl := classified frameArea (predictions f) in
  let ppl := people cl in
  let currentBboxes := List.map bbox ppl in
  let prevBboxes := prevBboxRef st in
  let '(history, fall) := trackFrame (now f) prevBboxes currentBboxes (personHistoryRef st) in
  let fight := altercationAlerts ppl in
  let rush := rushAlerts ppl (prevCountRef st) in
  let history' := sweep (now f) history in
  let animals := animalAlerts (predictions f) in
  let '(stats, prevCount) := updateStats cl (statsRef st, prevCountRef st) in
  let crowd := overcrowdingAlerts (currentCount stats) in
  ({| statsRef := stats; prevCountRef := prevCount;
      personHistoryRef := history'; prevBboxRef := currentBboxes |},
   fall ++ fight ++ rush ++ animals ++ crowd).

(** The refs after a run of cycles. *)
Definition run (frames : list Frame) (st : DetectorState) : DetectorState :=
  foldl (λ st f, (detect f st).1) st frames.

End Detector.
Import Detector.

(** ** Bookkeeping for the eviction rule

    The source stores neither the time of an identity's last update nor its
    number of observations.  Both are kept here beside the identity map, in
    a table the tracker never reads: [note] is called with the key the
    tracker files a detection under, and starts over when that key is not
    in the map. *)

Module Ghost.

Record Obs := { lastUpdated : Z; observations : nat }.

Definition note (now : Z) (history : gmap string HistoryEntry) (key : string)
           (g : gmap string Obs) : gmap string Obs :=
  match history !! key, g !! key with
  | Some _, Some o =>
      <[key := {| lastUpdated := now; observations := S (observations o) |}]> g
  | _, _ => <[key := {| lastUpdated := now; observations := 1 |}]> g
  end.

(** [trackOne] with the table updated alongside. *)
Definition trackOneG (now : Z) (prevBboxes : list BBox) (matched : gset nat)
           (ci : nat) (b : BBox)
           (st : (gmap string HistoryEntry * list Alert) * gmap string Obs)
  : (gmap string HistoryEntry * list Alert) * gmap string Obs :=
  (trackOne now prevBboxes matched ci b st.1,
   note now st.1.1 (detectionKey now prevBboxes matched ci b) st.2).

Definition trackFrameG (now : Z) (prevBboxes currentBboxes : list BBox)
           (history : gmap string HistoryEntry) (g : gmap string Obs)
  : (gmap string HistoryEntry * list Alert) * gmap string Obs :=
  let matched : gset nat := ∅ in
  forEach (trackOneG now prevBboxes matched) currentBboxes ((history, []), g).

(** The boxes [detect] hands to the tracker for a frame. *)
Definition frameBboxes (f : Frame) : list BBox :=
  List.map bbox
    (people (classified (inject_Z (canvasWidth f * canvasHeight f)) (predictions f))).

(** One cycle with the table carried along. *)
Definition detectG (f : Frame) (sg : DetectorState * gmap string Obs)
  : DetectorState * gmap string Obs :=
  ((detect f sg.1).1,
   (trackFrameG (now f) (prevBboxRef sg.1) (frameBboxes f)
                (personHistoryRef sg.1) sg.2).2).

Definition runG (frames : list Frame) (sg : DetectorState * gmap string Obs)
  : DetectorState * gmap string Obs :=
  foldl (λ sg f, detectG f sg) sg frames.

(** The table matches the map: every identity in the map has a record,
    with at least one observation; its stored history holds as many
    positions as it was observed, up to the cap; and an identity observed
    once was last updated when it was first seen. *)
Definition consistent (h : gmap string HistoryEntry) (g : gmap string Obs) : Prop :=
  ∀ k e, h !! k = Some e →
    ∃ o, g !! k = Some o
         ∧ 1 ≤ observations o
         ∧ length (positions e) = Nat.min (observations o) 30
         ∧ (observations o = 1 → lastUpdated o = firstSeen e).

End Ghost.
Import Ghost.

(** ** Voice announcements ([useVoiceAlert]) *)

Module Voice.

(** [/[^a-zA-Z ]/]: the code units the key keeps. *)
Definition isLetterOrSpace (c : N) : bool :=
  ((65 <=? c) && (c <=? 90) || (97 <=? c) && (c <=? 122) || (c =? 32))%N.

(** [toLowerCase] on what the filter keeps: only [A-Z] change. *)
Definition toLowerCase (c : N) : N :=
  if ((65 <=? c) && (c <=? 90))%N then (c + 32)%N else c.

(** [message.replace(/[^a-zA-Z ]/g, "").toLowerCase().slice(0, 40)]. *)
Definition dedupKey (message : jsstring) : jsstring :=
  take 40 (List.map toLowerCase (List.filter isLetterOrSpace message)).

Definition isHighSurrogate (c : N) : bool := ((55296 <=? c) && (c <=? 56319))%N.
Definition isLowSurrogate (c : N) : bool := ((56320 <=? c) && (c <=? 57343))%N.

(** The code point of a surrogate pair. *)
Definition codePoint (hi lo : N) : N :=
  (65536 + (hi - 55296) * 1024 + (lo - 56320))%N.

(** [/[\u{1F600}-\u{1FFFF}]/gu]: with the [u] flag a surrogate pair is one
    character; no code point of the class fits in one code unit. *)
Fixpoint stripEmoji (s : jsstring) : jsstring :=
  match s with
  | [] => []
  | hi :: tl =>
      match tl with
      | lo :: rest =>
          if isHighSurrogate hi && isLowSurrogate lo then
            if ((128512 <=? codePoint hi lo) && (codePoint hi lo <=? 131071))%N
            then stripEmoji rest
            else hi :: lo :: stripEmoji rest
          else hi :: stripEmoji tl
      | [] => [hi]
      end
  end.

(** White space and line terminators of ECMAScript. *)
Definition isWhiteSpace (c : N) : bool :=
  ((9 <=? c) && (c <=? 13) || (c =? 32) || (c =? 160) || (c =? 5760)
   || (8192 <=? c) && (c <=? 8202) || (c =? 8232) || (c =? 8233)
   || (c =? 8239) || (c =? 8287) || (c =? 12288) || (c =? 65279))%N.

Fixpoint trimStart (s : jsstring) : jsstring :=
  match s with
  | [] => []
  | c :: rest => if isWhiteSpace c then trimStart rest else s
  end.

Definition trim (s : jsstring) : jsstring := rev (trimStart (rev (trimStart s))).

(** [message.replace(/[\u{1F600}-\u{1FFFF}]/gu, "").trim()]. *)
Definition cleanText (message : jsstring) : jsstring := trim (stripEmoji message).

(** The refs and state cells of the hook, and beside them the speech
    engine as the hook sees it: [pending] holds the utterances handed to
    [speechSynthesis.speak] whose end or error event has not fired yet,
    [uttered] every utterance handed over, oldest first. *)
Record VoiceState := {
  synthRef : bool;
  queueRef : list jsstring;
  isSpeakingRef : bool;
  lastSpokenRef : gmap (list N) Z;
  voiceEnabled : bool;
  isSpeaking : bool;
  pending : list jsstring;
  uttered : list jsstring
}.

(** The hook after mounting; [hasSynth] is ["speechSynthesis" in window]. *)
Definition initialVoice (hasSynth : bool) : VoiceState :=
  {| synthRef := hasSynth; queueRef := []; isSpeakingRef := false;
     lastSpokenRef := ∅; voiceEnabled := true; isSpeaking := false;
     pending := []; uttered := [] |}.

Definition speakNext (s : VoiceState) : VoiceState :=
  if negb (synthRef s) || Nat.eqb (length (queueRef s)) 0 || isSpeakingRef s then s
  else
    match queueRef s with
    | [] => s
    | text :: rest =>
        {| synthRef := synthRef s; queueRef := rest; isSpeakingRef := true;
           lastSpokenRef := lastSpokenRef s; voiceEnabled := voiceEnabled s;
           isSpeaking := true;
           pending := pending s ++ [text]; uttered := uttered s ++ [text] |}
    end.

(** [utterance.onend] and [utterance.onerror] have the same body. *)
Definition onend (s : VoiceState) : VoiceState :=
  speakNext
    {| synthRef := synthRef s; queueRef := queueRef s; isSpeakingRef := false;
       lastSpokenRef := lastSpokenRef s; voiceEnabled := voiceEnabled s;
       isSpeaking := false; pending := pending s; uttered := uttered s |}.

Definition onerror (s : VoiceState) : VoiceState := onend s.

(** [speak(message, cooldownMs)]; [t1] and [t2] are the two readings of
    [Date.now()], for the comparison and for the table. *)
Definition speak (t1 t2 : Z) (message : jsstring) (cooldownMs : Z) (s : VoiceState)
  : VoiceState :=
  if negb (voiceEnabled s) || negb (synthRef s) then s
  else
    let key := dedupKey message in
    let lastTime := default 0%Z (lastSpokenRef s !! key) in
    if (t1 - lastTime <? cooldownMs)%Z then s
    else
      let clean := cleanText message in
      speakNext
        {| synthRef := synthRef s; queueRef := queueRef s ++ [clean];
           isSpeakingRef := isSpeakingRef s;
           lastSpokenRef := <[key := t2]> (lastSpokenRef s);
           voiceEnabled := voiceEnabled s; isSpeaking := isSpeaking s;
           pending := pending s; uttered := uttered s |}.

(** The default value of [cooldownMs]. *)
Definition defaultCooldown : Z := 8000.

Definition cancelSpeech (s : VoiceState) : VoiceState :=
  {| synthRef := synthRef s; queueRef := []; isSpeakingRef := false;
     lastSpokenRef := lastSpokenRef s; voiceEnabled := voiceEnabled s;
     isSpeaking := false;
     pending := if synthRef s then [] else pending s;
     uttered := uttered s |}.


(** What happens to the hook between renders: a call of [speak], or the
    engine finishing its oldest utterance, normally or with an error. *)
Inductive Event :=
| Speak (t1 t2 : Z) (message : jsstring) (cooldownMs : Z)
| Ended
| Failed.

(** The engine fires the handler of the utterance it finishes; with
    nothing in progress there is no event to deliver. *)
Definition finish (handler : VoiceState → VoiceState) (s : VoiceState) : VoiceState :=
  match pending s with
  | [] => s
  | _ :: rest =>
      handler
        {| synthRef := synthRef s; queueRef := queueRef s;
           isSpeakingRef := isSpeakingRef s; lastSpokenRef := lastSpokenRef s;
           voiceEnabled := voiceEnabled s; isSpeaking := isSpeaking s;
           pending := rest; uttered := uttered s |}
  end.

Definition step (e : Event) (s : VoiceState) : VoiceState :=
  match e with
  | Speak t1 t2 message cooldownMs => speak t1 t2 message cooldownMs s
  | Ended => finish onend s
  | Failed => finish onerror s
  end.

Definition play (events : list Event) (s : VoiceState) : VoiceState :=
  foldl (λ s e, step e s) s events.

(** Whether [speak] gets past its two early returns. *)
Definition accepts (t1 : Z) (message : jsstring) (cooldownMs : Z) (s : VoiceState) : bool :=
  voiceEnabled s && synthRef s
  && negb (t1 - default 0%Z (lastSpokenRef s !! dedupKey message) <? cooldownMs)%Z.



(** Derived forms used to state what a call does. *)

(** The hook right after [speak] has recorded the time and pushed the
    cleaned text, before it calls [speakNext]. *)
Definition pushed (t2 : Z) (message : jsstring) (s : VoiceState) : VoiceState :=
  {| synthRef := synthRef s; queueRef := queueRef s ++ [cleanText message];
     isSpeakingRef := isSpeakingRef s;
     lastSpokenRef := <[dedupKey message := t2]> (lastSpokenRef s);
     voiceEnabled := voiceEnabled s; isSpeaking := isSpeaking s;
     pending := pending s; uttered := uttered s |}.

(** The engine holds at most one unfinished utterance, the one handed
    over last, and the hook's flag says whether it holds one. *)
Definition singleFlight (s : VoiceState) : Prop :=
  match pending s with
  | [] => isSpeakingRef s = false
  | [u] => isSpeakingRef s = true ∧ last (uttered s) = Some u
  | _ => False
  end.


End Voice.
Import Voice.

(** ** Alert log and dispatch ([Index.tsx]) *)

Module Page.

Record AlertEntry := { time : jsstring; message : jsstring; severity : Severity }.

(** [prev.length > 0 && prev[prev.length - 1].message === message]. *)
Definition repeatsLast (prev : list AlertEntry) (m : jsstring) : bool :=
  match last prev with
  | Some e => bool_decide (message e = m)
  | None => false
  end.

(** The updater passed to [setAlerts]. *)
Definition setAlerts (entry : AlertEntry) (prev : list AlertEntry) : list AlertEntry :=
  if repeatsLast prev (message entry) then prev
  else sliceLast 50 (prev ++ [entry]).

Definition cooldownFor (severity : Severity) : Z :=
  match severity with
  | danger => 6000
  | warning => 10000
  | info => 15000
  end.

Record PageState := {
  alerts : list AlertEntry;
  toastAlert : option AlertEntry;
  voice : VoiceState
}.

(** [handleAlert(message, severity)]; [time] is the clock's
    [toLocaleTimeString()]. *)
Definition handleAlert (time : jsstring) (t1 t2 : Z)
           (message : jsstring) (severity : Severity) (st : PageState) : PageState :=
  let entry := {| time := time; message := message; severity := severity |} in
  {| alerts := setAlerts entry (alerts st);
     toastAlert := Some entry;
     voice := speak t1 t2 message (cooldownFor severity) (voice st) |}.

(** The log after a run of candidate alerts. *)
Definition submit (entries : list AlertEntry) (log : list AlertEntry) : list AlertEntry :=
  foldl (λ log entry, setAlerts entry log) log entries.

End Page.
Import Page.

(** The dispatcher's rule in the specification's words, on messages:
    a candidate is appended unless it equals the message appended last. *)

Module PageSpec.

Fixpoint dropRepeats (lastMsg : option jsstring) (ms : list jsstring) : list jsstring :=
  match ms with
  | [] => []
  | m :: rest =>
      if bool_decide (lastMsg = Some m) then dropRepeats lastMsg rest
      else m :: dropRepeats (Some m) rest
  end.

(** The message last appended, or [d] when nothing was. *)
Definition lastOr (d : option jsstring) (ms : list jsstring) : option jsstring :=
  match last ms with
  | Some m => Some m
  | None => d
  end.

End PageSpec.
Import PageSpec.

(** ** Sample inputs *)

Module Samples.

(** One adult in a 640 by 480 frame, at clock reading 1000. *)
Definition sampleFrame : Frame :=
  {| now := 1000; canvasWidth := 640; canvasHeight := 480;
     predictions := [obj samplePerson] |}.

(** A frame, more than a minute later, in which nothing is detected. *)
Definition quietFrame : Frame :=
  {| now := 100000; canvasWidth := 640; canvasHeight := 480; predictions := [] |}.

(** An identity seen twice. *)
Definition sampleEntry : HistoryEntry :=
  {| positions := [observed (bbox (obj samplePerson));
                   observed (bbox (obj samplePerson))];
     firstSeen := 0 |}.

Definition sampleTracked : DetectorState :=
  {| statsRef := initialStats; prevCountRef := 1;
     personHistoryRef := {[ "person_0" := sampleEntry ]};
     prevBboxRef := [bbox (obj samplePerson)] |}.

End Samples.
Import Samples.

(** Sample boxes for the tracker: centred on the same point, one upright
    with height over width 1.4, one flattened with ratio 0.8, and one a
    little to the side. *)

Module TrackerSamples.

Definition uprightBox : BBox := {| bx := 75; by_ := 65; bw := 50; bh := 70 |}.
Definition flatBox : BBox := {| bx := 50; by_ := 60; bw := 100; bh := 80 |}.
Definition nearbyBox : BBox := {| bx := 85; by_ := 65; bw := 50; bh := 70 |}.

(** An identity seen upright [n] times. *)
Definition uprightHistory (n : nat) : gmap string HistoryEntry :=
  {[ "person_0" := {| positions := replicate n (observed uprightBox); firstSeen := 0 |} ]}.

(** Two log entries with different messages. *)
Definition entryX : AlertEntry :=
  {| time := js "10:00:00"; message := js "X"; severity := warning |}.
Definition entryY : AlertEntry :=
  {| time := js "10:00:01"; message := js "Y"; severity := danger |}.

End TrackerSamples.
Import TrackerSamples.

(** ** Views of a detection cycle *)

Module DetectorViews.

(** The classification [detect] computes for a frame. *)
Definition frameClassified (f : Frame) : list PersonDetection :=
  classified (inject_Z (canvasWidth f * canvasHeight f)) (predictions f).

(** The relations between the counters, and between the counters and the
    refs beside them. *)
Definition balanced (st : DetectorState) : Prop :=
  let s := statsRef st in
  (totalIn s = totalOut s + currentCount s
   ∧ 0 ≤ totalOut s
   ∧ 0 ≤ currentCount s ∧ currentCount s ≤ peakCount s ∧ peakCount s ≤ totalIn s
   ∧ childCount s + adultCount s = currentCount s
   ∧ 0 ≤ childCount s ∧ 0 ≤ adultCount s
   ∧ prevCountRef st = currentCount s
   ∧ Z.of_nat (length (prevBboxRef st)) = currentCount s
   ∧ Z.of_nat (length (detections s)) = currentCount s)%Z.

(** The two forms of key the tracker files a detection under. *)
Definition indexKey (pi : nat) : string := "person_" +:+ pretty pi.
Definition freshKey (now : Z) (ci : nat) : string :=
  "person_new_" +:+ pretty now +:+ "_" +:+ pretty ci.

(** The characters [pretty] prints a number with. *)
Definition isDigit (a : Ascii.ascii) : bool :=
  let n := Ascii.N_of_ascii a in ((48 <=? n) && (n <=? 57))%N.
Definition isDigitOrDash (a : Ascii.ascii) : bool :=
  isDigit a || (Ascii.N_of_ascii a =? 45)%N.

Fixpoint allChars (P : Ascii.ascii → bool) (s : string) : bool :=
  match s with
  | EmptyString => true
  | String a s' => P a && allChars P s'
  end.

(** The entry of an identity just created from the box [b]. *)
Definition newEntry (now : Z) (b : BBox) : HistoryEntry :=
  {| positions := [observed b]; firstSeen := now |}.

(** An identity of the map through the tracker loop: it stays, keeps its
    first-seen time, and its history does not get shorter unless it is
    full. *)
Definition carried (k : string) (e : HistoryEntry) (h : gmap string HistoryEntry) : Prop :=
  ∃ e', h !! k = Some e' ∧ firstSeen e' = firstSeen e
        ∧ Nat.min (length (positions e)) 30 ≤ length (positions e').

(** The species [detect] reports. *)
Definition species : list string := ["dog"; "cat"; "bird"; "horse"].

(** A frame in which the model sees a dog and nobody else. *)
Definition dogFrame : Frame :=
  {| now := 2000; canvasWidth := 640; canvasHeight := 480;
     predictions := [ {| class := "dog"; score := 0.8;
                         bbox := {| bx := 10; by_ := 10; bw := 80; bh := 60 |} |} ] |}.

End DetectorViews.
Import DetectorViews.

(** ** Views of the voice hook *)

Module VoiceViews.


(** The key every overcrowding message is filed under. *)
Definition overcrowdingKey : jsstring := js "overcrowding alert  people detected".

(** The hook after ["Fire!"] was accepted at clock reading 100000. *)
Definition afterFire : VoiceState :=
  speak 100000 100000 (js "Fire!") 8000 (initialVoice true).

End VoiceViews.
Import VoiceViews.

(** ** What the panels show ([StatsPanel.tsx], and the labels drawn by
    [detect]) *)

Module Panel.

Global Instance Severity_eq_dec : EqDecision Severity.
Proof. solve_decision. Defined.

(** [Math.round] on a rational: halves go up. *)
Definition round (x : Q) : Z := Qfloor (x + (1 # 2)).

(** [Math.round(score * 100)], the percentage beside a person. *)
Definition confidence (p : DetectedObject) : Z := round (score p * 100).

(** [alerts.filter((a) => a.severity === "danger").length]. *)
Definition dangerCount (alerts : list AlertEntry) : nat :=
  length (List.filter (λ a, bool_decide (severity a = danger)) alerts).

(** [alerts.filter((a) => a.severity === "warning").length]. *)
Definition warningCount (alerts : list AlertEntry) : nat :=
  length (List.filter (λ a, bool_decide (severity a = warning)) alerts).

(** [alerts.slice(-10).reverse()], the rows of the alert list. *)
Definition shownAlerts (alerts : list AlertEntry) : list AlertEntry :=
  rev (sliceLast 10 alerts).

End Panel.
Import Panel.

(** ** Chart and history buffers ([Index.tsx], [CrowdChart], [CrowdHistory]) *)

Module CrowdChart.

Record CrowdDataPoint := { time : jsstring; count : Z; totalIn : Z; totalOut : Z }.

(** The chart is drawn once there are two points:
    [data.length < 2 ? "Collecting data points..." : chart]. *)
Definition chartDrawn (data : list CrowdDataPoint) : bool := negb (Nat.ltb (length data) 2).

End CrowdChart.

Module CrowdHistory.

Record HistoryEntry := {
  timestamp : jsstring;
  currentCount : Z;
  totalIn : Z;
  totalOut : Z;
  peakCount : Z
}.

(** The table lists [history.slice().reverse()]. *)
Definition historyRows (history : list HistoryEntry) : list HistoryEntry := rev history.

End CrowdHistory.

Module Recorder.

(** One firing of an interval: [isRunning] as the callback closed over it,
    what the clock shows, and the snapshot read from [statsSnapshotRef]. *)
Record Tick := { isRunning : bool; clock : jsstring; snapshot : DetectionStats }.

Definition chartPoint (t : Tick) : CrowdChart.CrowdDataPoint :=
  {| CrowdChart.time := clock t;
     CrowdChart.count := Occupancy.currentCount (snapshot t);
     CrowdChart.totalIn := Occupancy.totalIn (snapshot t);
     CrowdChart.totalOut := Occupancy.totalOut (snapshot t) |}.

Definition historyRow (t : Tick) : CrowdHistory.HistoryEntry :=
  {| CrowdHistory.timestamp := clock t;
     CrowdHistory.currentCount := Occupancy.currentCount (snapshot t);
     CrowdHistory.totalIn := Occupancy.totalIn (snapshot t);
     CrowdHistory.totalOut := Occupancy.totalOut (snapshot t);
     CrowdHistory.peakCount := Occupancy.peakCount (snapshot t) |}.

(** The 3-second callback: [if (!isRunning) return;] then
    [setChartData(prev => [...prev, point].slice(-60))]. *)
Definition chartTick (t : Tick) (prev : list CrowdChart.CrowdDataPoint)
  : list CrowdChart.CrowdDataPoint :=
  if negb (isRunning t) then prev else sliceLast 60 (prev ++ [chartPoint t]).

(** The 10-second callback, with [.slice(-100)]. *)
Definition historyTick (t : Tick) (prev : list CrowdHistory.HistoryEntry)
  : list CrowdHistory.HistoryEntry :=
  if negb (isRunning t) then prev else sliceLast 100 (prev ++ [historyRow t]).

(** The two buffers after a run of firings, from the empty initial state. *)
Definition chartAfter (ticks : list Tick) : list CrowdChart.CrowdDataPoint :=
  foldl (λ data t, chartTick t data) [] ticks.

Definition historyAfter (ticks : list Tick) : list CrowdHistory.HistoryEntry :=
  foldl (λ h t, historyTick t h) [] ticks.

(** The firings that found the system running. *)
Definition whileRunning (ticks : list Tick) : list Tick := List.filter isRunning ticks.

End Recorder.

(** ** The detector wired to the page: [onAlert={handleAlert}] *)

Module App.

(** What the clock returns during the [i]-th [onAlert] call of a cycle:
    the time string of the entry and the two readings taken by [speak]. *)
Definition Clock : Type := nat → jsstring * Z * Z.

(** The [onAlert] calls of one cycle, in order. *)
Definition dispatch (clock : Clock) (alerts : list Alert) (st : PageState) : PageState :=
  forEach (λ i a st,
             let '(time, t1, t2) := clock i in
             handleAlert time t1 t2 (alertMessage a) (alertSeverity a) st)
          alerts st.

(** One cycle of [detect] with its alerts delivered. *)
Definition cycle (fc : Frame * Clock) (st : DetectorState * PageState)
  : DetectorState * PageState :=
  let '(det, alerts) := detect fc.1 st.1 in
  (det, dispatch fc.2 alerts st.2).

Definition initialPage (hasSynth : bool) : PageState :=
  {| alerts := []; toastAlert := None; voice := initialVoice hasSynth |}.

Definition appRun (cycles : list (Frame * Clock)) (st : DetectorState * PageState)
  : DetectorState * PageState :=
  foldl (λ st fc, cycle fc st) st cycles.

End App.
Import App.

(** * Properties *)

(** ** Occupancy counters *)

Section OccupancyFacts.

Local Open Scope Z_scope.

Lemma people_length (cl : list PersonDetection) : length (people cl) = length cl.
Proof. unfold people. apply length_map. Qed.

Lemma updateStats_deltaStep cl st t :
  agrees st t → agrees (updateStats cl st) (deltaStep t (frameCount cl)).
Proof.
  destruct st as [stats prev]. unfold agrees, frameCount. simpl.
  intros (Hin & Hout & Hpeak & _ & Hprev). rewrite people_length.
  set (c := Z.of_nat (length cl)). subst prev.
  rewrite Hin, Hout, Hpeak.
  repeat split.
  - destruct (Z.ltb_spec (tCurrent t) c); case_decide; (reflexivity || lia).
  - destruct (Z.ltb_spec (tCurrent t) c); case_decide; try (reflexivity || lia).
    destruct (Z.ltb_spec c (tCurrent t)), (Z.ltb_spec 0 (tCurrent t));
      simpl; case_decide; (reflexivity || lia).
  - destruct (Z.ltb_spec (tPeak t) c); [rewrite Z.max_r | rewrite Z.max_l]; lia.
Qed.

Lemma replay_agrees_from frames st t :
  agrees st t →
  agrees (foldl (λ st cl, updateStats cl st) st frames)
         (foldl deltaStep t (List.map frameCount frames)).
Proof.
  revert st t. induction frames as [|cl frames IH]; intros st t H; simpl.
  - exact H.
  - apply IH. by apply updateStats_deltaStep.
Qed.

(** The rule's tally in closed form, for counts that are not negative. *)
Lemma deltaRule_closed counts t :
  0 ≤ tCurrent t → 0 ≤ tPeak t → Forall (λ c, 0 ≤ c) counts →
  let t' := foldl deltaStep t counts in
  tIn t' = tIn t + rises (tCurrent t) counts
  ∧ tOut t' = tOut t + drops (tCurrent t) counts
  ∧ tPeak t' = Z.max (tPeak t) (highest counts).
Proof.
  revert t. induction counts as [|c counts IH]; intros t Hp Hpk Hall; simpl.
  - unfold highest. simpl. lia.
  - inversion Hall as [|? ? Hc Hrest]; subst.
    destruct (IH (deltaStep t c)) as (Hi & Ho & Hk); [simpl; lia | simpl; lia | done |].
    rewrite Hi, Ho, Hk. unfold highest. simpl.
    repeat split.
    + case_decide; lia.
    + case_decide; [lia|]. case_decide; lia.
    + lia.
Qed.

Lemma frameCounts_nonneg frames : Forall (λ c, 0 ≤ c) (List.map frameCount frames).
Proof.
  induction frames; simpl; constructor; [unfold frameCount; lia | done].
Qed.

Lemma highest_nonneg counts : 0 ≤ highest counts.
Proof. induction counts; unfold highest in *; simpl; lia. Qed.

End OccupancyFacts.

(** C1.  From zeroed counters, replaying any sequence of per-frame
    classifications through the counter block of [detect] yields exactly
    the [totalIn], [totalOut], [peakCount] and [currentCount] of the stated
    delta rule applied to the frame counts, which are the sum of the rises,
    the sum of the drops and the largest count; the rule maps the counts
    0, 2, 1, 3, 0 to totalIn 4, totalOut 4 and peak 3, and so does the code
    on frames of those sizes. *)
Theorem replay_delta_rule :
  (∀ frames : list (list PersonDetection),
      let counts := List.map frameCount frames in
      let stats := (replay frames).1 in
      let t := deltaRule counts in
      (totalIn stats = tIn t ∧ totalOut stats = tOut t
       ∧ peakCount stats = tPeak t ∧ currentCount stats = tCurrent t)
      ∧ (totalIn stats = rises 0 counts ∧ totalOut stats = drops 0 counts
         ∧ peakCount stats = highest counts))
  ∧ (let t := deltaRule [0; 2; 1; 3; 0]%Z in
     tIn t = 4%Z ∧ tOut t = 4%Z ∧ tPeak t = 3%Z)
  ∧ (let stats :=
       (replay (List.map (λ n, replicate n samplePerson) [0; 2; 1; 3; 0]%nat)).1 in
     totalIn stats = 4%Z ∧ totalOut stats = 4%Z ∧ peakCount stats = 3%Z
     ∧ currentCount stats = 0%Z).
Proof.
  split; [|split; [by vm_compute | by vm_compute]].
  intros frames counts stats t.
  assert (Hag : agrees (replay frames) t).
  { apply replay_agrees_from. by repeat split. }
  destruct Hag as (Hi & Ho & Hk & Hc & _).
  split; [done|].
  fold stats in Hi, Ho, Hk. rewrite Hi, Ho, Hk.
  pose proof (deltaRule_closed counts
                {| tIn := 0; tOut := 0; tPeak := 0; tCurrent := 0 |}) as Hcl.
  simpl in Hcl. destruct Hcl as (H1 & H2 & H3); [lia | lia | apply frameCounts_nonneg |].
  fold (deltaRule counts) in H1, H2, H3. fold t in H1, H2, H3.
  pose proof (highest_nonneg counts).
  repeat split; lia.
Qed.

(** ** Comparisons on numbers *)

Section NumberFacts.

Lemma Qltb_lt (x y : Q) : Qltb x y = true ↔ (x < y)%Q.
Proof.
  unfold Qltb. rewrite Qlt_alt. destruct (x ?= y)%Q; split; congruence.
Qed.

Lemma Qltb_ge (x y : Q) : Qltb x y = false ↔ (y <= x)%Q.
Proof.
  unfold Qltb. change (y <= x)%Q with (x >= y)%Q. rewrite Qge_alt.
  destruct (x ?= y)%Q; split; congruence.
Qed.

Lemma Qgtb_gt (x y : Q) : Qgtb x y = true ↔ (y < x)%Q.
Proof. apply Qltb_lt. Qed.


End NumberFacts.

(** ** Person classifier *)

Section ClassifierFacts.

Lemma rawPeople_score predictions p :
  In p (rawPeople predictions) → (0.40 < score p)%Q ∧ class p = "person".
Proof.
  unfold rawPeople. rewrite filter_In. intros [_ H].
  apply andb_prop in H as [Hc Hs]. split.
  - by apply Qgtb_gt.
  - by apply String.eqb_eq.
Qed.

Lemma classifyOne_Some frameArea p det :
  classifyOne frameArea p = Some det →
  obj det = p
  ∧ (isChild det = true → (score p < 0.60)%Q)
  ∧ (isChild det = false → (0.50 <= score p)%Q).
Proof.
  unfold classifyOne.
  set (child := Qltb (score p) 0.60 && _ && _).
  destruct (negb child && Qltb (score p) 0.50) eqn:Hdrop; [discriminate|].
  intros [= <-]. simpl. split; [done|]. split.
  - intros Hc. subst child.
    apply andb_prop in Hc as [Hc _]. apply andb_prop in Hc as [Hc _].
    by apply Qltb_lt.
  - intros Hc. rewrite Hc in Hdrop. simpl in Hdrop. by apply Qltb_ge.
Qed.

Lemma classified_inv frameArea predictions det :
  det ∈ classified frameArea predictions →
  In (obj det) (rawPeople predictions)
  ∧ isRealPerson frameArea (bbox (obj det)) = true
  ∧ classifyOne frameArea (obj det) = Some det.
Proof.
  unfold classified. rewrite list_elem_of_omap. intros (p & Hp & Hcl).
  apply list_elem_of_In, filter_In in Hp as [Hraw Hreal].
  destruct (classifyOne_Some _ _ _ Hcl) as (Hobj & _). subst p. done.
Qed.

End ClassifierFacts.

(** C4.  In every frame, a detection the classifier accepts as an adult
    has score at least 0.50, and one it accepts as a child has score at
    least 0.40 (indeed above it) and below 0.60. *)
Theorem classified_scores frameArea predictions i det :
  classified frameArea predictions !! i = Some det →
  if isChild det
  then (0.40 <= score (obj det))%Q ∧ (score (obj det) < 0.60)%Q
  else (0.50 <= score (obj det))%Q.
Proof.
  intros Hi. apply list_elem_of_lookup_2 in Hi.
  apply classified_inv in Hi as (Hraw & _ & Hcl).
  apply rawPeople_score in Hraw as [Hs _].
  apply classifyOne_Some in Hcl as (_ & Hchild & Hadult).
  destruct (isChild det).
  - split; [by apply Qlt_le_weak | by apply Hchild].
  - by apply Hadult.
Qed.

Lemma classified_scores_witness :
  (0.40 <= score (obj sampleChild))%Q ∧ (score (obj sampleChild) < 0.60)%Q.
Proof.
  apply (classified_scores 307200 [obj samplePerson; obj sampleChild; sampleFaint] 1
                           sampleChild).
  reflexivity.
Defined.

(** ** Alert log *)

Section AlertLogFacts.

Context {A : Type}.

Lemma sliceLast_short (n : nat) (l : list A) : length l ≤ n → sliceLast n l = l.
Proof.
  intros H. unfold sliceLast. replace (length l - n) with 0 by lia. done.
Qed.

Lemma sliceLast_length (n : nat) (l : list A) :
  length (sliceLast n l) = Nat.min n (length l).
Proof. unfold sliceLast. rewrite length_drop. lia. Qed.

Lemma sliceLast_snoc (n : nat) (l : list A) (x : A) :
  0 < n → sliceLast n (l ++ [x]) = sliceLast (n - 1) l ++ [x].
Proof.
  intros Hn. unfold sliceLast. rewrite length_app. simpl.
  rewrite drop_app_le by lia. f_equal. f_equal. lia.
Qed.

Lemma sliceLast_sliceLast (n m : nat) (l : list A) :
  n ≤ m → sliceLast n (sliceLast m l) = sliceLast n l.
Proof.
  intros H. unfold sliceLast at 1 3. rewrite sliceLast_length.
  unfold sliceLast. rewrite drop_drop. f_equal. lia.
Qed.

(** Cutting to the last [n] before and after an append is the same as
    cutting once after it. *)
Lemma sliceLast_snoc_idem (n : nat) (l : list A) (x : A) :
  0 < n → sliceLast n (sliceLast n l ++ [x]) = sliceLast n (l ++ [x]).
Proof.
  intros Hn. rewrite !sliceLast_snoc by done.
  by rewrite sliceLast_sliceLast by lia.
Qed.

Lemma last_sliceLast (n : nat) (l : list A) : 0 < n → last (sliceLast n l) = last l.
Proof.
  intros Hn. destruct l as [|a l'] using rev_ind; [done|].
  rewrite sliceLast_snoc by done. by rewrite !last_snoc.
Qed.

End AlertLogFacts.

Section DispatcherFacts.

Lemma dropRepeats_snoc lm ms m :
  dropRepeats lm (ms ++ [m])
  = dropRepeats lm ms
    ++ (if bool_decide (lastOr lm (dropRepeats lm ms) = Some m) then [] else [m]).
Proof.
  revert lm. induction ms as [|x ms IH]; intros lm; simpl.
  - unfold lastOr. simpl. by destruct (bool_decide (lm = Some m)).
  - destruct (bool_decide (lm = Some x)) eqn:Hx.
    + apply IH.
    + rewrite IH. simpl. f_equal. unfold lastOr.
      rewrite last_cons. by destruct (last (dropRepeats (Some x) ms)).
Qed.

Lemma repeatsLast_messages prev m :
  repeatsLast prev m = bool_decide (last (message <$> prev) = Some m).
Proof.
  unfold repeatsLast. rewrite fmap_last. destruct (last prev) as [e|]; simpl.
  - apply bool_decide_ext. split; [by intros -> | by intros [= ->]].
  - done.
Qed.

Lemma setAlerts_messages entry prev :
  message <$> setAlerts entry prev
  = if bool_decide (last (message <$> prev) = Some (message entry))
    then message <$> prev
    else sliceLast 50 ((message <$> prev) ++ [message entry]).
Proof.
  unfold setAlerts. rewrite repeatsLast_messages.
  destruct (bool_decide _); [done|].
  unfold sliceLast. rewrite fmap_drop, fmap_app, !length_app, length_fmap. done.
Qed.

Lemma submit_snoc entries entry log :
  submit (entries ++ [entry]) log = setAlerts entry (submit entries log).
Proof. unfold submit. by rewrite foldl_app. Qed.

Lemma submit_messages entries :
  message <$> submit entries []
  = sliceLast 50 (dropRepeats None (message <$> entries)).
Proof.
  induction entries as [|entry entries IH] using rev_ind; [done|].
  rewrite submit_snoc, setAlerts_messages, IH, fmap_app. simpl.
  rewrite dropRepeats_snoc.
  set (D := dropRepeats None (message <$> entries)).
  rewrite last_sliceLast by lia. unfold lastOr.
  destruct (last D) as [m|] eqn:HD.
  - destruct (bool_decide (Some m = Some (message entry))).
    + by rewrite app_nil_r.
    + apply sliceLast_snoc_idem. lia.
  - assert (D = []) as -> by (by apply last_None).
    rewrite bool_decide_eq_false_2 by done. done.
Qed.

Lemma setAlerts_length entry prev :
  length prev ≤ 50 → length (setAlerts entry prev) ≤ 50.
Proof.
  intros H. unfold setAlerts. destruct (repeatsLast _ _); [done|].
  rewrite sliceLast_length. lia.
Qed.

Lemma submit_length entries log :
  length log ≤ 50 → length (submit entries log) ≤ 50.
Proof.
  revert log. induction entries as [|e entries IH]; intros log H; simpl; [done|].
  apply IH. by apply setAlerts_length.
Qed.

End DispatcherFacts.

(** C5.  The dispatcher leaves the log untouched when the candidate's
    message equals the message of the entry appended last, and otherwise
    appends the candidate and keeps the 50 newest entries; so after any run
    of candidates the log holds at most 50 entries, whose messages are the
    last 50 of the candidates' messages with immediate repeats removed.
    Messages "X", "X", "Y" give the log "X", "Y". *)
Theorem alert_log_rule :
  (∀ prev e entry,
      last prev = Some e → message e = message entry →
      setAlerts entry prev = prev)
  ∧ (∀ prev entry,
        (∀ e, last prev = Some e → message e ≠ message entry) →
        setAlerts entry prev = drop (length prev + 1 - 50) (prev ++ [entry])
        ∧ last (setAlerts entry prev) = Some entry)
  ∧ (∀ entries,
        length (submit entries []) ≤ 50
        ∧ message <$> submit entries []
          = sliceLast 50 (dropRepeats None (message <$> entries)))
  ∧ (∀ t1 t2 t3 s1 s2 s3,
        message <$> submit [ {| time := t1; message := js "X"; severity := s1 |};
                             {| time := t2; message := js "X"; severity := s2 |};
                             {| time := t3; message := js "Y"; severity := s3 |} ] []
        = [js "X"; js "Y"]).
Proof.
  split; [|split; [|split]].
  - intros prev e entry Hlast Hmsg. unfold setAlerts, repeatsLast.
    rewrite Hlast. by rewrite bool_decide_eq_true_2.
  - intros prev entry Hne.
    assert (setAlerts entry prev = sliceLast 50 (prev ++ [entry])) as ->.
    { unfold setAlerts, repeatsLast. destruct (last prev) as [e|] eqn:Hl; [|done].
      rewrite bool_decide_eq_false_2; [done|]. by apply Hne. }
    split.
    + unfold sliceLast. by rewrite length_app.
    + rewrite last_sliceLast by lia. apply last_snoc.
  - intros entries. split; [by apply submit_length; simpl; lia | apply submit_messages].
  - intros. by vm_compute.
Qed.

Lemma alert_log_rule_witness :
  setAlerts entryY [entryX] = drop (length [entryX] + 1 - 50) ([entryX] ++ [entryY])
  ∧ last (setAlerts entryY [entryX]) = Some entryY.
Proof.
  apply (proj1 (proj2 alert_log_rule) [entryX] entryY).
  intros e He. injection He as <-. intros H. vm_compute in H. discriminate H.
Defined.

(** ** Identity tracker *)

Section TrackerFacts.

(** An invariant of the loop state that every iteration keeps holds after
    the loop. *)
Lemma forEachFrom_invariant {A St : Type} (I : St → Prop)
      (body : nat → A → St → St) (l : list A) :
  (∀ i x s, I s → I (body i x s)) →
  ∀ i s, I s → I (forEachFrom body i l s).
Proof.
  intros Hbody. induction l as [|x l IH]; intros i s Hs; simpl; [done|].
  apply IH. by apply Hbody.
Qed.

Lemma pushPosition_length ps p :
  length (pushPosition ps p)
  = if decide (30 ≤ length ps) then length ps else S (length ps).
Proof.
  unfold pushPosition. rewrite length_app. simpl.
  destruct (Nat.ltb_spec 30 (length ps + 1)).
  - destruct ps as [|a ps']; simpl in *; [lia|].
    rewrite length_app. simpl. case_decide; lia.
  - rewrite length_app. simpl. case_decide; lia.
Qed.


Lemma pushPosition_room ps p :
  length ps < 30 → pushPosition ps p = ps ++ [p].
Proof.
  intros H. unfold pushPosition. rewrite length_app. simpl.
  destruct (Nat.ltb_spec 30 (length ps + 1)); [lia|done].
Qed.

(** One iteration of the tracker loop, in closed form. *)
Lemma trackOne_eq now prevBboxes matched ci b history alerts :
  let key := detectionKey now prevBboxes matched ci b in
  let entry := appended now b (history !! key) in
  trackOne now prevBboxes matched ci b (history, alerts)
  = (<[key := entry]> history, alerts ++ fallAlerts (positions entry)).
Proof.
  intros key entry. unfold trackOne. fold key.
  unfold entry, appended, observed, entryOrNew.
  destruct (center b) as [cx cy] eqn:Hc. simpl.
  destruct (decide (is_Some (history !! key))) as [[e He]|Hnone].
  - rewrite He. simpl. done.
  - apply eq_None_not_Some in Hnone. rewrite lookup_insert_eq, Hnone. simpl.
    by rewrite insert_insert_eq.
Qed.

Lemma trackOne_lookup now prevBboxes matched ci b history alerts k :
  (trackOne now prevBboxes matched ci b (history, alerts)).1 !! k
  = if decide (detectionKey now prevBboxes matched ci b = k)
    then Some (appended now b (history !! k))
    else history !! k.
Proof.
  rewrite trackOne_eq. simpl. rewrite lookup_insert.
  case_decide; [by subst|done].
Qed.

Lemma sweep_lookup now history k :
  sweep now history !! k
  = match history !! k with
    | Some e => if stale now e then None else Some e
    | None => None
    end.
Proof.
  unfold sweep. destruct (history !! k) as [e|] eqn:Hk.
  - destruct (stale now e) eqn:Hs.
    + apply map_lookup_filter_None. right. intros e' He'. simpl.
      rewrite Hk in He'. injection He' as <-. by rewrite Hs.
    + apply map_lookup_filter_Some. by split.
  - apply map_lookup_filter_None. by left.
Qed.

Lemma detect_history f st :
  personHistoryRef (detect f st).1
  = sweep (now f) (trackFrame (now f) (prevBboxRef st) (frameBboxes f)
                              (personHistoryRef st)).1.
Proof.
  unfold detect, frameBboxes.
  destruct (trackFrame _ _ _ _) as [h a]. by destruct (updateStats _ _).
Qed.

Lemma run_snoc frames f st : run (frames ++ [f]) st = (detect f (run frames st)).1.
Proof. unfold run. by rewrite foldl_app. Qed.

Lemma run_cons frames f st : run (f :: frames) st = run frames (detect f st).1.
Proof. done. Qed.

End TrackerFacts.

Section HistoryInvariants.

(** A property of the identity map that every loop iteration and the
    sweep keep is kept by a whole detection cycle, and by any run. *)
Lemma trackFrame_invariant (I : gmap string HistoryEntry → Prop)
      now prevBboxes currentBboxes history :
  (∀ matched ci b h a, I h → I (trackOne now prevBboxes matched ci b (h, a)).1) →
  I history → I (trackFrame now prevBboxes currentBboxes history).1.
Proof.
  intros Hone Hh. unfold trackFrame, forEach.
  apply (forEachFrom_invariant (λ s, I s.1)); [|done].
  intros i x [h a] Hs. by apply Hone.
Qed.

Lemma run_invariant (I : gmap string HistoryEntry → Prop) :
  (∀ now prevBboxes matched ci b h a,
      I h → I (trackOne now prevBboxes matched ci b (h, a)).1) →
  (∀ now h, I h → I (sweep now h)) →
  ∀ frames st, I (personHistoryRef st) → I (personHistoryRef (run frames st)).
Proof.
  intros Hone Hsweep frames. induction frames as [|f frames IH]; intros st Hst; [done|].
  rewrite run_cons. apply IH. rewrite detect_history.
  apply Hsweep. apply trackFrame_invariant; [|done].
  intros. by apply Hone.
Qed.




Lemma trackOne_established k fs now prevBboxes matched ci b h a :
  established k fs h →
  established k fs (trackOne now prevBboxes matched ci b (h, a)).1.
Proof.
  intros (e & Hk & Hlen & Hfs). unfold established.
  rewrite trackOne_lookup. case_decide.
  - eexists. split; [done|]. rewrite Hk. unfold appended. simpl.
    split; [|done]. rewrite pushPosition_length. case_decide; lia.
  - by exists e.
Qed.

Lemma sweep_established k fs now h : established k fs h → established k fs (sweep now h).
Proof.
  intros (e & Hk & Hlen & Hfs). exists e. rewrite sweep_lookup, Hk.
  unfold stale. destruct (Nat.ltb_spec (length (positions e)) 2); [lia|].
  by rewrite andb_false_r.
Qed.

End HistoryInvariants.


(** C10.  An identity that holds at least two positions stays in the
    identity map, with at least two positions and its first-seen time,
    through any further run of frames, whatever their clock readings and
    detections. *)
Theorem established_never_evicted (st : DetectorState) (frames : list Frame)
        (key : string) (entry : HistoryEntry) :
  personHistoryRef st !! key = Some entry →
  2 ≤ length (positions entry) →
  ∃ entry', personHistoryRef (run frames st) !! key = Some entry'
            ∧ 2 ≤ length (positions entry')
            ∧ firstSeen entry' = firstSeen entry.
Proof.
  intros Hk Hlen.
  apply (run_invariant (established key (firstSeen entry))).
  - intros. by apply trackOne_established.
  - intros. by apply sweep_established.
  - by exists entry.
Qed.


Lemma established_never_evicted_witness :
  ∃ entry', personHistoryRef (run [quietFrame] sampleTracked) !! "person_0" = Some entry'
            ∧ 2 ≤ length (positions entry')
            ∧ firstSeen entry' = firstSeen sampleEntry.
Proof.
  apply (established_never_evicted sampleTracked [quietFrame] "person_0" sampleEntry).
  - vm_compute. reflexivity.
  - simpl. lia.
Defined.

(** ** Eviction and the bookkeeping table *)

Section GhostFacts.

Lemma forEachFrom_fst {A St G : Type} (body : nat → A → St → St)
      (bodyG : nat → A → St * G → St * G) (l : list A) :
  (∀ i x s, (bodyG i x s).1 = body i x s.1) →
  ∀ i s, (forEachFrom bodyG i l s).1 = forEachFrom body i l s.1.
Proof.
  intros Hb. induction l as [|x l IH]; intros i s; simpl; [done|].
  by rewrite IH, Hb.
Qed.

(** Forgetting the table gives back the tracker loop and the run. *)
Lemma trackFrameG_erase now prevBboxes currentBboxes history g :
  (trackFrameG now prevBboxes currentBboxes history g).1
  = trackFrame now prevBboxes currentBboxes history.
Proof.
  unfold trackFrameG, trackFrame, forEach.
  by rewrite (forEachFrom_fst (trackOne now prevBboxes ∅)).
Qed.

Lemma runG_erase frames sg : (runG frames sg).1 = run frames sg.1.
Proof.
  revert sg. induction frames as [|f frames IH]; intros sg; [done|].
  unfold runG, run in *. simpl. by rewrite IH.
Qed.

Lemma trackOneG_consistent now prevBboxes matched ci b h a g :
  consistent h g →
  consistent (trackOneG now prevBboxes matched ci b ((h, a), g)).1.1
             (trackOneG now prevBboxes matched ci b ((h, a), g)).2.
Proof.
  intros Hc k e. unfold trackOneG. cbn [fst snd].
  rewrite trackOne_lookup. unfold note.
  set (key := detectionKey now prevBboxes matched ci b).
  case_decide as Hkey.
  - subst k. intros [= <-].
    destruct (h !! key) as [e0|] eqn:Hh.
    + destruct (Hc key e0 Hh) as (o & Hg & Hpos & Hlen & _).
      rewrite Hg. eexists. split; [apply lookup_insert_eq|]. simpl.
      split; [lia|]. split; [|lia].
      rewrite pushPosition_length, Hlen. case_decide; lia.
    + eexists. split; [apply lookup_insert_eq|]. simpl.
      split; [lia|]. split; [|done].
      by vm_compute.
  - intros Hk. destruct (Hc k e Hk) as (o & Hg & Hrest).
    exists o. split; [|done].
    destruct (h !! key), (g !! key); by rewrite lookup_insert_ne.
Qed.

Lemma trackFrameG_consistent now prevBboxes currentBboxes h g :
  consistent h g →
  consistent (trackFrameG now prevBboxes currentBboxes h g).1.1
             (trackFrameG now prevBboxes currentBboxes h g).2.
Proof.
  intros Hc. unfold trackFrameG, forEach.
  apply (forEachFrom_invariant (λ s, consistent s.1.1 s.2)); [|done].
  intros i x [[h' a'] g'] Hs. by apply trackOneG_consistent.
Qed.

Lemma sweep_consistent now h g : consistent h g → consistent (sweep now h) g.
Proof.
  intros Hc k e. rewrite sweep_lookup.
  destruct (h !! k) as [e'|] eqn:Hk; [|done].
  destruct (stale now e'); [done|]. intros [= <-]. by apply Hc.
Qed.

Lemma runG_consistent frames sg :
  consistent (personHistoryRef sg.1) sg.2 →
  consistent (personHistoryRef (runG frames sg).1) (runG frames sg).2.
Proof.
  revert sg. induction frames as [|f frames IH]; intros sg Hc; [done|].
  unfold runG in *. simpl. apply IH. unfold detectG. simpl.
  rewrite detect_history, <- (trackFrameG_erase _ _ _ _ sg.2).
  apply sweep_consistent. by apply trackFrameG_consistent.
Qed.

(** On a consistent pair the code's test on [firstSeen] and the stored
    length is the test on the last update and the observation count. *)
Lemma stale_iff now e o :
  1 ≤ observations o →
  length (positions e) = Nat.min (observations o) 30 →
  (observations o = 1 → lastUpdated o = firstSeen e) →
  stale now e = true ↔ (60000 < now - lastUpdated o)%Z ∧ observations o < 2.
Proof.
  intros Hpos Hlen Hone. unfold stale. rewrite andb_true_iff, Z.ltb_lt, Nat.ltb_lt.
  split.
  - intros [Ht Hl]. assert (observations o = 1) as H1 by lia.
    rewrite (Hone H1). lia.
  - intros [Ht Hl]. assert (observations o = 1) as H1 by lia.
    rewrite <- (Hone H1). lia.
Qed.

End GhostFacts.

(** C9.  In every frame of every run, an identity that is in the map after
    the tracker loop is removed by the sweep exactly when it was last
    updated more than 60000 ms before the frame's clock reading and has
    been observed fewer than 2 times; otherwise the sweep leaves its entry
    as it is. *)
Theorem sweep_evicts_stale (frames : list Frame) (f : Frame)
        (key : string) (entry : HistoryEntry) :
  let st := run frames initialState in
  let g := (runG frames (initialState, ∅)).2 in
  let tracked :=
    trackFrame (now f) (prevBboxRef st) (frameBboxes f) (personHistoryRef st) in
  let g' :=
    (trackFrameG (now f) (prevBboxRef st) (frameBboxes f) (personHistoryRef st) g).2 in
  tracked.1 !! key = Some entry →
  ∃ obs, g' !! key = Some obs
         ∧ personHistoryRef (detect f st).1 !! key
           = if decide ((60000 < now f - lastUpdated obs)%Z ∧ observations obs < 2)
             then None else Some entry.
Proof.
  intros st g tracked g' Hk.
  assert (Hrun : consistent (personHistoryRef st) g).
  { pose proof (runG_consistent frames (initialState, ∅)) as H.
    rewrite runG_erase in H. apply H. intros k e. simpl. by rewrite lookup_empty. }
  pose proof (trackFrameG_consistent (now f) (prevBboxRef st) (frameBboxes f) _ _ Hrun)
    as Hc.
  rewrite trackFrameG_erase in Hc. fold tracked g' in Hc.
  destruct (Hc key entry Hk) as (obs & Hg & Hpos & Hlen & Hone).
  exists obs. split; [done|].
  rewrite detect_history. fold tracked. rewrite sweep_lookup, Hk.
  pose proof (stale_iff (now f) entry obs Hpos Hlen Hone) as Hiff.
  destruct (stale (now f) entry); case_decide as Hd; try done.
  - exfalso. apply Hd. by apply Hiff.
  - exfalso. assert (false = true) as Habs by (by apply Hiff). discriminate Habs.
Qed.

Lemma sweep_evicts_stale_witness :
  ∃ obs,
    (trackFrameG (now quietFrame) (prevBboxRef (run [sampleFrame] initialState))
                 (frameBboxes quietFrame)
                 (personHistoryRef (run [sampleFrame] initialState))
                 (runG [sampleFrame] (initialState, ∅)).2).2
    !! "person_new_1000_0" = Some obs
    ∧ personHistoryRef (detect quietFrame (run [sampleFrame] initialState)).1
      !! "person_new_1000_0"
      = if decide ((60000 < now quietFrame - lastUpdated obs)%Z ∧ observations obs < 2)
        then None
        else Some (appended 1000 (bbox (obj samplePerson)) None).
Proof.
  apply (sweep_evicts_stale [sampleFrame] quietFrame "person_new_1000_0").
  vm_compute. reflexivity.
Defined.

(** ** Fall heuristic *)

Section FallFacts.

Lemma fallAlerts_short ps : length ps ≤ 5 → fallAlerts ps = [].
Proof.
  intros H. unfold fallAlerts. destruct (Nat.ltb_spec 5 (length ps)); [lia|done].
Qed.

Lemma fallAlerts_fallen ps : fallen ps → fallAlerts ps = [fallAlert].
Proof.
  intros (Hlen & p0 & p4 & H0 & H4 & Hup & Hflat). unfold fallAlerts.
  destruct (Nat.ltb_spec 5 (length ps)); [|lia].
  change (List.map heightRatio (sliceLast 5 ps)) with (heightRatio <$> sliceLast 5 ps).
  rewrite head_lookup, list_lookup_fmap, H0, fmap_last, last_sliceLast, H4 by lia.
  simpl. apply Qgtb_gt in Hup. apply Qltb_lt in Hflat. by rewrite Hup, Hflat.
Qed.

Lemma fallAlerts_not_fallen ps : ¬ fallen ps → fallAlerts ps = [].
Proof.
  intros Hnot. unfold fallAlerts.
  destruct (Nat.ltb_spec 5 (length ps)) as [Hlen|]; [|done].
  change (List.map heightRatio (sliceLast 5 ps)) with (heightRatio <$> sliceLast 5 ps).
  rewrite head_lookup, list_lookup_fmap, fmap_last, last_sliceLast by lia.
  destruct (sliceLast 5 ps !! 0) as [p0|] eqn:H0; [|done].
  destruct (last ps) as [p4|] eqn:H4; [|done]. simpl.
  destruct (Qgtb (heightRatio p0) 1.3) eqn:Hup; [|done].
  destruct (Qltb (heightRatio p4) 0.9) eqn:Hflat; [|done].
  exfalso. apply Hnot. split; [done|]. exists p0, p4.
  repeat split; try done; [by apply Qgtb_gt | by apply Qltb_lt].
Qed.

Lemma upright_not_fallen ps :
  (∀ p, p ∈ sliceLast 5 ps → (0.9 < heightRatio p)%Q) → ¬ fallen ps.
Proof.
  intros Hall (Hlen & p0 & p4 & _ & H4 & _ & Hflat).
  assert (p4 ∈ sliceLast 5 ps) as Hin.
  { apply list_elem_of_lookup. rewrite <- (last_sliceLast 5) in H4 by lia.
    rewrite last_lookup in H4. eauto. }
  specialize (Hall p4 Hin). apply (Qlt_irrefl 0.9). by eapply Qlt_trans.
Qed.

End FallFacts.

(** C3 (as the code has it).  When a detection is appended to an
    identity's history, the fall check looks at the history after the
    append: if it holds more than 5 positions, with height over width
    above 1.3 at the first of its last 5 and below 0.9 at the last, that
    detection raises exactly one alert, the danger-level fall alert;
    otherwise it raises none.  In particular a history of 5 or fewer
    positions raises none, and neither does one whose last 5 positions all
    have ratio above 0.9. *)
Theorem fall_alert_rule now prevBboxes matched ci b history alerts :
  let key := detectionKey now prevBboxes matched ci b in
  let after := trackOne now prevBboxes matched ci b (history, alerts) in
  ∃ entry,
    after.1 !! key = Some entry
    ∧ alertSeverity fallAlert = danger
    ∧ (fallen (positions entry) → after.2 = alerts ++ [fallAlert])
    ∧ (¬ fallen (positions entry) → after.2 = alerts)
    ∧ (length (positions entry) ≤ 5 → after.2 = alerts)
    ∧ ((∀ p, p ∈ sliceLast 5 (positions entry) → (0.9 < heightRatio p)%Q) →
       after.2 = alerts).
Proof.
  intros key after. subst after. rewrite trackOne_eq. fold key. simpl.
  eexists. split; [apply lookup_insert_eq|]. split; [done|].
  repeat split.
  - intros H. by rewrite fallAlerts_fallen.
  - intros H. by rewrite fallAlerts_not_fallen, app_nil_r.
  - intros H. by rewrite fallAlerts_short, app_nil_r.
  - intros H. rewrite fallAlerts_not_fallen, app_nil_r; [done|].
    by apply upright_not_fallen.
Qed.

(** The sixth observation, flat after five upright ones, raises the
    alert. *)
Lemma fall_alert_rule_witness :
  (trackOne 1000 [uprightBox] ∅ 0 flatBox (uprightHistory 5, [])).2 = [fallAlert].
Proof.
  destruct (fall_alert_rule 1000 [uprightBox] ∅ 0 flatBox (uprightHistory 5) [])
    as (entry & Hk & _ & Hfall & _).
  apply Hfall. vm_compute in Hk. injection Hk as <-.
  split; [simpl; lia|]. eexists _, _.
  split; [reflexivity|]. split; [reflexivity|]. split; by vm_compute.
Defined.

(** C3 as stated fails: an identity whose history holds exactly 5
    positions, with ratio 1.4 at the first and 0.8 at the last, raises no
    alert in the frame that records the fifth. *)
Lemma fall_with_five_positions_silent :
  let after := trackFrame 1000 [uprightBox] [flatBox] (uprightHistory 4) in
  ∃ entry p0 p4,
    after.1 !! "person_0" = Some entry
    ∧ length (positions entry) = 5
    ∧ head (positions entry) = Some p0 ∧ (heightRatio p0 == 1.4)%Q
    ∧ last (positions entry) = Some p4 ∧ (heightRatio p4 == 0.8)%Q
    ∧ after.2 = [].
Proof.
  eexists _, _, _. split; [by vm_compute|]. simpl.
  split; [done|]. split; [done|]. split; [by vm_compute|].
  split; [done|]. split; by vm_compute.
Qed.

(** ** Matching against the previous frame *)

Section MatchingFacts.

Variables (matched : gset nat) (cx cy : Q).

Lemma scanPrev_cases pi pbox best :
  scanPrev matched cx cy pi pbox best
  = if decide (pi ∈ matched) then best
    else if belowBest (centreDist2 cx cy pbox) best.1
            && Qltb (centreDist2 cx cy pbox) 22500
         then (Some (centreDist2 cx cy pbox), "person_" +:+ pretty pi)
         else best.
Proof.
  unfold scanPrev, centreDist2. by destruct (center pbox).
Qed.

Lemma lookup_snoc_inv (pre : list BBox) (x : BBox) pj pbox :
  (pre ++ [x]) !! pj = Some pbox →
  pre !! pj = Some pbox ∨ (pj = length pre ∧ pbox = x).
Proof.
  rewrite lookup_app_Some. intros [H|[Hge H]]; [by left|right].
  destruct (pj - length pre) as [|n] eqn:Hn; simpl in H; [|done].
  injection H as <-. split; [lia|done].
Qed.

(** One step of the scan keeps the loop state on the nearest candidate. *)
Lemma scanPrev_nearest pre x best :
  nearestAmong matched cx cy pre best →
  nearestAmong matched cx cy (pre ++ [x])
               (scanPrev matched cx cy (length pre) x best).
Proof.
  intros Hbest. rewrite scanPrev_cases.
  set (d' := centreDist2 cx cy x).
  assert (Hx : (pre ++ [x]) !! length pre = Some x).
  { rewrite lookup_app_r by lia. by rewrite Nat.sub_diag. }
  assert (Hold : ∀ pj pbox, pre !! pj = Some pbox → (pre ++ [x]) !! pj = Some pbox).
  { intros pj pbox H. by apply lookup_app_l_Some. }
  destruct (decide (length pre ∈ matched)) as [Hin|Hnotin].
  { (* the box is skipped *)
    unfold nearestAmong in *. destruct best.1 as [d|].
    - destruct Hbest as (pi & pbox & Hpi & Hcand & Hkey & Hd & Hmin & Hfirst).
      exists pi, pbox.
      split; [by apply Hold|]. do 3 (split; [done|]). split.
      + intros pj pbox' Hpj Hc. apply lookup_snoc_inv in Hpj as [Hpj|[-> ->]].
        * by eapply Hmin.
        * by destruct Hc.
      + intros pj pbox' Hlt Hpj Hc. apply lookup_snoc_inv in Hpj as [Hpj|[-> ->]].
        * by eapply Hfirst.
        * by destruct Hc.
    - destruct Hbest as [Hkey Hnone]. split; [done|].
      intros pj pbox Hpj Hc. apply lookup_snoc_inv in Hpj as [Hpj|[-> ->]].
      + by eapply Hnone.
      + by destruct Hc. }
  destruct (belowBest d' best.1 && Qltb d' 22500) eqn:Htest.
  - (* the box becomes the best *)
    apply andb_prop in Htest as [Hbelow Hnear]. apply Qltb_lt in Hnear.
    unfold nearestAmong. simpl. exists (length pre), x.
    split; [done|]. split; [done|]. split; [done|]. split; [done|].
    assert (Hbeats : ∀ pj pbox', pre !! pj = Some pbox' →
                                 candidate matched cx cy pj pbox' →
                                 (d' < centreDist2 cx cy pbox')%Q).
    { intros pj pbox' Hpj Hc. unfold nearestAmong in Hbest.
      destruct best.1 as [d|]; simpl in Hbelow.
      - destruct Hbest as (pi & pbox & _ & _ & _ & _ & Hmin & _).
        apply Qltb_lt in Hbelow. apply (Qlt_le_trans _ d); [exact Hbelow|].
        by eapply Hmin.
      - destruct Hbest as [_ Hnone]. exfalso. by eapply Hnone. }
    split.
    + intros pj pbox' Hpj Hc. apply lookup_snoc_inv in Hpj as [Hpj|[-> ->]].
      * apply Qlt_le_weak. by eapply Hbeats.
      * apply Qle_refl.
    + intros pj pbox' Hlt Hpj Hc. apply lookup_snoc_inv in Hpj as [Hpj|[-> ->]].
      * by eapply Hbeats.
      * lia.
  - (* the box does not beat the best *)
    apply andb_false_iff in Htest.
    unfold nearestAmong in *. destruct best.1 as [d|]; simpl in Htest.
    + destruct Hbest as (pi & pbox & Hpi & Hcand & Hkey & Hd & Hmin & Hfirst).
      exists pi, pbox.
      split; [by apply Hold|]. do 3 (split; [done|]). split.
      * intros pj pbox' Hpj Hc. apply lookup_snoc_inv in Hpj as [Hpj|[-> ->]].
        -- by eapply Hmin.
        -- destruct Hc as [_ Hc]. destruct Htest as [Hge|Hfar].
           ++ by apply Qltb_ge in Hge.
           ++ apply Qltb_ge in Hfar. exfalso. apply (Qlt_irrefl 22500).
              exact (Qle_lt_trans _ _ _ Hfar Hc).
      * intros pj pbox' Hlt Hpj Hc. apply lookup_snoc_inv in Hpj as [Hpj|[-> ->]].
        -- by eapply Hfirst.
        -- apply lookup_lt_Some in Hpi. lia.
    + destruct Hbest as [Hkey Hnone]. split; [done|].
      intros pj pbox Hpj Hc. apply lookup_snoc_inv in Hpj as [Hpj|[-> ->]].
      * by eapply Hnone.
      * destruct Hc as [_ Hc]. destruct Htest as [Habs|Hfar]; [done|].
        apply Qltb_ge in Hfar. apply (Qlt_irrefl 22500).
        exact (Qle_lt_trans _ _ _ Hfar Hc).
Qed.

Lemma forEachFrom_nearest l pre best :
  nearestAmong matched cx cy pre best →
  nearestAmong matched cx cy (pre ++ l)
               (forEachFrom (scanPrev matched cx cy) (length pre) l best).
Proof.
  revert pre best. induction l as [|x l IH]; intros pre best Hbest; simpl.
  - by rewrite app_nil_r.
  - rewrite cons_middle, app_assoc.
    replace (S (length pre)) with (length (pre ++ [x]))
      by (rewrite length_app; simpl; lia).
    apply IH. by apply scanPrev_nearest.
Qed.

(** The inner loop finds the nearest previous box that is closer than
    150 px and not marked as matched, the first one among equals. *)
Lemma nearestPrev_nearest prevBboxes :
  nearestAmong matched cx cy prevBboxes (nearestPrev prevBboxes matched cx cy).
Proof.
  unfold nearestPrev, forEach.
  apply (forEachFrom_nearest prevBboxes [] (None, "")).
  split; [done|]. intros pj pbox H. by rewrite lookup_nil in H.
Qed.

End MatchingFacts.

(** A detection is filed under the key of the nearest previous box within
    150 px, and under a fresh key when there is none. *)
Lemma detectionKey_cases now prevBboxes matched ci b :
  let cx := (center b).1 in
  let cy := (center b).2 in
  (detectionKey now prevBboxes matched ci b
   = "person_new_" +:+ pretty now +:+ "_" +:+ pretty ci
   ∧ ∀ pj pbox, prevBboxes !! pj = Some pbox → ¬ candidate matched cx cy pj pbox)
  ∨ (∃ pi pbox,
        detectionKey now prevBboxes matched ci b = "person_" +:+ pretty pi
        ∧ prevBboxes !! pi = Some pbox ∧ candidate matched cx cy pi pbox
        ∧ ∀ pj pbox', prevBboxes !! pj = Some pbox' →
                      candidate matched cx cy pj pbox' →
                      (centreDist2 cx cy pbox <= centreDist2 cx cy pbox')%Q).
Proof.
  intros cx cy. unfold detectionKey.
  destruct (center b) as [cx' cy'] eqn:Hc. simpl in cx, cy. subst cx cy.
  pose proof (nearestPrev_nearest matched cx' cy' prevBboxes) as H.
  unfold nearestAmong in H.
  destruct (nearestPrev prevBboxes matched cx' cy') as [[d|] bestKey]; simpl in *.
  - destruct H as (pi & pbox & Hpi & Hcand & -> & -> & Hmin & _).
    right. exists pi, pbox. do 3 (split; [done|]). done.
  - destruct H as [-> Hnone]. left. by split.
Qed.

(** C2 fails on the code: the set of matched previous indices is never
    added to, so two detections of one frame that are both nearest to the
    same previous box are filed under the same identity, whose history
    receives both positions. *)
Theorem two_detections_one_identity :
  assignments 1000 [uprightBox] [uprightBox; nearbyBox] = ["person_0"; "person_0"]
  ∧ ∃ entry,
      (trackFrame 1000 [uprightBox] [uprightBox; nearbyBox] ∅).1 !! "person_0"
      = Some entry
      ∧ positions entry = [observed uprightBox; observed nearbyBox].
Proof.
  split; [by vm_compute|].
  eexists. split; by vm_compute.
Qed.

(** ** Voice queue *)

Section VoiceFacts.

Lemma speak_accepted t1 t2 message cooldownMs s :
  accepts t1 message cooldownMs s = true →
  speak t1 t2 message cooldownMs s = speakNext (pushed t2 message s).
Proof.
  unfold accepts, speak, pushed. intros H.
  apply andb_prop in H as [H Hcool]. apply andb_prop in H as [Hen Hsy].
  rewrite Hen, Hsy. simpl. apply negb_true_iff in Hcool. by rewrite Hcool.
Qed.

Lemma speak_discarded t1 t2 message cooldownMs s :
  accepts t1 message cooldownMs s = false →
  speak t1 t2 message cooldownMs s = s.
Proof.
  unfold accepts, speak. intros H.
  destruct (voiceEnabled s); [|done]. destruct (synthRef s); [|done]. simpl in *.
  apply negb_false_iff in H. by rewrite H.
Qed.

Lemma speak_cases t1 t2 message cooldownMs s :
  speak t1 t2 message cooldownMs s
  = if accepts t1 message cooldownMs s then speakNext (pushed t2 message s) else s.
Proof.
  destruct (accepts _ _ _ _) eqn:H; [by apply speak_accepted | by apply speak_discarded].
Qed.

(** [speakNext] either does nothing or hands the head of the queue to the
    engine. *)
Lemma speakNext_cases s :
  (speakNext s = s
   ∧ (synthRef s = false ∨ queueRef s = [] ∨ isSpeakingRef s = true))
  ∨ (∃ text rest,
        synthRef s = true ∧ isSpeakingRef s = false ∧ queueRef s = text :: rest
        ∧ speakNext s
          = {| synthRef := synthRef s; queueRef := rest; isSpeakingRef := true;
               lastSpokenRef := lastSpokenRef s; voiceEnabled := voiceEnabled s;
               isSpeaking := true;
               pending := pending s ++ [text]; uttered := uttered s ++ [text] |}).
Proof.
  unfold speakNext.
  destruct (synthRef s) eqn:Hs; simpl; [|left; auto].
  destruct (queueRef s) as [|text rest] eqn:Hq; simpl; [left; auto|].
  destruct (isSpeakingRef s) eqn:Hp; simpl; [left; auto|].
  right. by exists text, rest.
Qed.

Lemma speakNext_table s :
  lastSpokenRef (speakNext s) = lastSpokenRef s
  ∧ voiceEnabled (speakNext s) = voiceEnabled s
  ∧ synthRef (speakNext s) = synthRef s.
Proof.
  destruct (speakNext_cases s) as [[-> _]|(text & rest & _ & _ & _ & ->)]; done.
Qed.

Lemma finish_table s :
  lastSpokenRef (finish onend s) = lastSpokenRef s
  ∧ voiceEnabled (finish onend s) = voiceEnabled s
  ∧ synthRef (finish onend s) = synthRef s.
Proof.
  unfold finish, onend. destruct (pending s); [done|].
  set (s' := Build_VoiceState _ _ _ _ _ _ _ _).
  destruct (speakNext_table s') as (-> & -> & ->). done.
Qed.

(** Events never switch the voice off nor remove the engine. *)
Lemma step_enabled e s :
  voiceEnabled (step e s) = voiceEnabled s ∧ synthRef (step e s) = synthRef s.
Proof.
  destruct e as [t1 t2 m c| |]; unfold step.
  - rewrite speak_cases. destruct (accepts _ _ _ _); [|done].
    destruct (speakNext_table (pushed t2 m s)) as (_ & -> & ->). done.
  - destruct (finish_table s) as (_ & -> & ->). done.
  - change (finish onerror s) with (finish onend s).
    destruct (finish_table s) as (_ & -> & ->). done.
Qed.




(** What decides a call: the voice switch, the engine, and the time since
    the key's recorded time measured against the cooldown of the call being
    made; a key with no recorded time counts from 0. *)
Lemma accepts_recorded t1 message cooldownMs s t :
  voiceEnabled s = true → synthRef s = true →
  lastSpokenRef s !! dedupKey message = Some t →
  accepts t1 message cooldownMs s = negb (t1 - t <? cooldownMs)%Z.
Proof. intros Hen Hsy Ht. unfold accepts. by rewrite Hen, Hsy, Ht. Qed.

Lemma accepts_first t1 message cooldownMs s :
  voiceEnabled s = true → synthRef s = true →
  lastSpokenRef s !! dedupKey message = None →
  accepts t1 message cooldownMs s = negb (t1 <? cooldownMs)%Z.
Proof.
  intros Hen Hsy Ht. unfold accepts. rewrite Hen, Hsy, Ht. simpl.
  by rewrite Z.sub_0_r.
Qed.

Lemma speak_switched_off t1 t2 message cooldownMs s :
  voiceEnabled s = false ∨ synthRef s = false →
  speak t1 t2 message cooldownMs s = s.
Proof.
  intros H. apply speak_discarded. unfold accepts.
  destruct H as [-> | ->]; [done|]. by rewrite andb_false_r.
Qed.

(** The key is at most 40 lower-case letters and spaces. *)
Lemma dedupKey_shape message :
  length (dedupKey message) ≤ 40
  ∧ Forall (λ c, (97 ≤ c ≤ 122)%N ∨ c = 32%N) (dedupKey message).
Proof.
  unfold dedupKey. split; [rewrite length_take; lia|].
  apply Forall_take. rewrite Forall_forall. intros c Hc.
  apply list_elem_of_In, in_map_iff in Hc as (c0 & <- & Hc0).
  apply filter_In in Hc0 as [_ Hk]. unfold isLetterOrSpace in Hk. unfold toLowerCase.
  destruct (N.leb_spec 65 c0), (N.leb_spec c0 90), (N.leb_spec 97 c0),
    (N.leb_spec c0 122), (N.eqb_spec c0 32); simpl in *; try discriminate; lia.
Qed.

End VoiceFacts.

Section QueueFacts.




Lemma play_cons e events s : play (e :: events) s = play events (step e s).
Proof. done. Qed.


Lemma singleFlight_idle s :
  singleFlight s → isSpeakingRef s = false → pending s = [].
Proof.
  unfold singleFlight. destruct (pending s) as [|u [|u' l]]; [done| |done].
  intros [H _] H'. congruence.
Qed.

Lemma speakNext_singleFlight s : singleFlight s → singleFlight (speakNext s).
Proof.
  intros Hs.
  destruct (speakNext_cases s) as [[-> _]|(text & rest & _ & Hidle & _ & ->)]; [done|].
  unfold singleFlight. simpl. rewrite (singleFlight_idle s Hs Hidle). simpl.
  split; [done|]. apply last_snoc.
Qed.

Lemma finish_singleFlight s : singleFlight s → singleFlight (finish onend s).
Proof.
  intros Hs. unfold finish. destruct (pending s) as [|u [|u' l]] eqn:Hp; [done| |].
  - unfold onend. apply speakNext_singleFlight. by unfold singleFlight.
  - unfold singleFlight in Hs. by rewrite Hp in Hs.
Qed.

Lemma step_singleFlight e s : singleFlight s → singleFlight (step e s).
Proof.
  intros Hs. destruct e as [t1 t2 m c| |]; unfold step.
  - rewrite speak_cases. destruct (accepts _ _ _ _); [|done].
    by apply speakNext_singleFlight.
  - by apply finish_singleFlight.
  - by apply finish_singleFlight.
Qed.

Lemma play_singleFlight events s : singleFlight s → singleFlight (play events s).
Proof.
  revert s. induction events as [|e events IH]; intros s Hs; [done|].
  rewrite play_cons. apply IH. by apply step_singleFlight.
Qed.





End QueueFacts.




(** * Further properties of the code *)

(** ** Shape filter and classifier *)

Section ShapeFacts.





Lemma filter_sublist {A} (f : A → bool) (l : list A) : List.filter f l `sublist_of` l.
Proof.
  induction l as [|x l IH]; simpl; [done|].
  destruct (f x); [by apply sublist_skip | by apply sublist_cons].
Qed.

Lemma classify_sublist frameArea (l : list DetectedObject) :
  people (omap (classifyOne frameArea) l) `sublist_of` l.
Proof.
  induction l as [|p l IH]; [done|]. simpl.
  destruct (classifyOne frameArea p) as [det|] eqn:Hc; simpl.
  - apply classifyOne_Some in Hc as [-> _]. by apply sublist_skip.
  - by apply sublist_cons.
Qed.

Lemma round_ge (z : Z) (x : Q) : (inject_Z z <= x)%Q → (z ≤ round x)%Z.
Proof.
  intros H. unfold round. rewrite <- (Qfloor_Z z). apply Qfloor_resp_le.
  eapply Qle_trans; [exact H|]. lra.
Qed.

End ShapeFacts.



(** X2.  The people of a frame are a sub-sequence of the model's
    predictions: the classifier drops detections but never reorders,
    repeats or alters one. *)
Theorem classified_sublist frameArea predictions :
  people (classified frameArea predictions) `sublist_of` predictions.
Proof.
  unfold classified.
  etrans; [apply classify_sublist|].
  etrans; [apply filter_sublist|]. apply filter_sublist.
Qed.

(** X3.  The percentage shown beside a person, [Math.round(score * 100)],
    is at least 40, and at least 50 for a person not classified as a
    child. *)
Theorem shown_confidence frameArea predictions i det :
  classified frameArea predictions !! i = Some det →
  (40 ≤ confidence (obj det))%Z
  ∧ (isChild det = false → (50 ≤ confidence (obj det))%Z).
Proof.
  intros Hi. apply list_elem_of_lookup_2 in Hi.
  apply classified_inv in Hi as (Hraw & _ & Hcl).
  apply rawPeople_score in Hraw as [Hs _].
  apply classifyOne_Some in Hcl as (_ & _ & Hadult).
  unfold confidence. split.
  - apply round_ge. change (inject_Z 40) with 40%Q. lra.
  - intros Hc. specialize (Hadult Hc). apply round_ge.
    change (inject_Z 50) with 50%Q. lra.
Qed.

Lemma shown_confidence_witness :
  (40 ≤ confidence (obj sampleChild))%Z
  ∧ (isChild sampleChild = false → (50 ≤ confidence (obj sampleChild))%Z).
Proof.
  apply (shown_confidence 307200 [obj samplePerson; obj sampleChild; sampleFaint] 1).
  reflexivity.
Defined.

(** ** Counters across cycles *)

Section CounterFacts.

Local Open Scope Z_scope.

Lemma detect_stats f st :
  (statsRef (detect f st).1, prevCountRef (detect f st).1)
  = updateStats (frameClassified f) (statsRef st, prevCountRef st).
Proof.
  unfold detect, frameClassified.
  destruct (trackFrame _ _ _ _) as [h a]. by destruct (updateStats _ _).
Qed.

Lemma detect_prevBbox f st : prevBboxRef (detect f st).1 = frameBboxes f.
Proof.
  unfold detect, frameBboxes.
  destruct (trackFrame _ _ _ _) as [h a]. by destruct (updateStats _ _).
Qed.

Lemma filter_length_le {A} (f : A → bool) (l : list A) :
  (length (List.filter f l) ≤ length l)%nat.
Proof. apply sublist_length, filter_sublist. Qed.

Lemma detect_balanced f st : balanced st → balanced (detect f st).1.
Proof.
  unfold balanced.
  intros (Hin & Hout & Hcur & Hpk & Hpkin & _ & _ & _ & Hprev & _ & _).
  pose proof (detect_stats f st) as Hs. pose proof (detect_prevBbox f st) as Hb.
  destruct (detect f st).1 as [stats' prev' hist' boxes']. simpl in *.
  subst boxes'. unfold updateStats in Hs.
  injection Hs as -> ->. simpl.
  rewrite people_length.
  pose proof (filter_length_le isChild (frameClassified f)) as Hch.
  set (c := Z.of_nat (length (frameClassified f))) in *.
  assert (Hc : 0 ≤ c) by (unfold c; lia).
  rewrite Hprev in *.
  unfold frameBboxes. fold (frameClassified f).
  rewrite length_map, people_length. fold c.
  destruct (Z.ltb_spec (currentCount (statsRef st)) c),
    (Z.ltb_spec c (currentCount (statsRef st))),
    (Z.ltb_spec 0 (currentCount (statsRef st))),
    (Z.ltb_spec (peakCount (statsRef st)) c); simpl; lia.
Qed.

Lemma run_balanced frames st : balanced st → balanced (run frames st).
Proof.
  revert st. induction frames as [|f frames IH]; intros st H; [done|].
  rewrite run_cons. apply IH. by apply detect_balanced.
Qed.

Lemma detect_counters_grow f st :
  totalIn (statsRef st) ≤ totalIn (statsRef (detect f st).1)
  ∧ totalOut (statsRef st) ≤ totalOut (statsRef (detect f st).1)
  ∧ peakCount (statsRef st) ≤ peakCount (statsRef (detect f st).1).
Proof.
  pose proof (detect_stats f st) as Hs.
  destruct (detect f st).1 as [stats' prev' hist' boxes']. simpl in *.
  unfold updateStats in Hs. injection Hs as -> ->. simpl.
  set (c := Z.of_nat (length (people (frameClassified f)))).
  destruct (Z.ltb_spec (prevCountRef st) c), (Z.ltb_spec c (prevCountRef st)),
    (Z.ltb_spec 0 (prevCountRef st)), (Z.ltb_spec (peakCount (statsRef st)) c);
    simpl; lia.
Qed.

End CounterFacts.

(** X4.  After any run of detection cycles from the initial refs: people
    counted in are the people counted out plus the people present; the
    present count is at most the peak, which is at most the total in; the
    child and adult counts are non-negative and add up to the present
    count; and the previous-count ref, the stored boxes and the stored
    detections all agree with the present count. *)
Theorem counters_balance (frames : list Frame) :
  let st := run frames initialState in
  let s := statsRef st in
  (totalIn s = totalOut s + currentCount s
   ∧ 0 ≤ totalOut s
   ∧ 0 ≤ currentCount s ∧ currentCount s ≤ peakCount s ∧ peakCount s ≤ totalIn s
   ∧ childCount s + adultCount s = currentCount s
   ∧ 0 ≤ childCount s ∧ 0 ≤ adultCount s
   ∧ prevCountRef st = currentCount s
   ∧ Z.of_nat (length (prevBboxRef st)) = currentCount s
   ∧ Z.of_nat (length (detections s)) = currentCount s)%Z.
Proof.
  apply (run_balanced frames initialState). unfold balanced. simpl. lia.
Qed.

(** X5.  Whatever the refs hold and whatever the frames bring, a run of
    detection cycles never lowers the total in, the total out or the
    peak. *)
Theorem counters_never_decrease (frames : list Frame) (st : DetectorState) :
  (totalIn (statsRef st) ≤ totalIn (statsRef (run frames st))
   ∧ totalOut (statsRef st) ≤ totalOut (statsRef (run frames st))
   ∧ peakCount (statsRef st) ≤ peakCount (statsRef (run frames st)))%Z.
Proof.
  revert st. induction frames as [|f frames IH]; intros st; [simpl; lia|].
  rewrite run_cons.
  destruct (detect_counters_grow f st) as (H1 & H2 & H3).
  destruct (IH (detect f st).1) as (H4 & H5 & H6). lia.
Qed.

(** ** The alerts of a cycle *)

Section AlertFacts.

Lemma fallAlerts_only ps : Forall (eq fallAlert) (fallAlerts ps).
Proof.
  unfold fallAlerts. repeat case_match; by repeat constructor.
Qed.

Lemma trackFrame_alerts now prevBboxes currentBboxes history :
  Forall (eq fallAlert) (trackFrame now prevBboxes currentBboxes history).2.
Proof.
  unfold trackFrame, forEach.
  apply (forEachFrom_invariant (λ s, Forall (eq fallAlert) s.2)); [|done].
  intros i b [h a] Ha. rewrite trackOne_eq. simpl in *.
  apply Forall_app. split; [done | apply fallAlerts_only].
Qed.

Lemma fallAlerts_length ps : length (fallAlerts ps) ≤ 1.
Proof. unfold fallAlerts. repeat case_match; simpl; lia. Qed.

(** At most one fall alert for each detection of the frame. *)
Lemma trackFrame_alerts_length now prevBboxes currentBboxes history :
  length (trackFrame now prevBboxes currentBboxes history).2 ≤ length currentBboxes.
Proof.
  unfold trackFrame, forEach.
  assert (∀ l i (s : gmap string HistoryEntry * list Alert),
             length (forEachFrom (trackOne now prevBboxes ∅) i l s).2
             ≤ length s.2 + length l) as H.
  { induction l as [|b l IH]; intros i [h a]; cbn [forEachFrom]; [simpl; lia|].
    etrans; [apply IH|]. rewrite trackOne_eq. cbn [fst snd]. rewrite length_app.
    match goal with
    | |- context [fallAlerts ?ps] => pose proof (fallAlerts_length ps)
    end.
    simpl in *. lia. }
  apply (H currentBboxes 0 (history, [])).
Qed.

Lemma altercationPairs_only ppl : Forall (eq altercationAlert) (altercationPairs ppl).
Proof.
  induction ppl as [|a rest IH]; simpl; [done|].
  apply Forall_app. split; [|done].
  apply Forall_flat_map, Forall_forall. intros b _.
  destruct (tooClose a b); by repeat constructor.
Qed.

Lemma closeTo_length a rest :
  length (flat_map (λ b, if tooClose a b then [altercationAlert] else []) rest)
  ≤ length rest.
Proof.
  induction rest as [|b rest IH]; simpl; [done|].
  rewrite length_app. destruct (tooClose a b); simpl; lia.
Qed.

Lemma altercationPairs_length ppl :
  2 * length (altercationPairs ppl) ≤ length ppl * (length ppl - 1).
Proof.
  induction ppl as [|a rest IH]; simpl; [lia|].
  rewrite length_app. pose proof (closeTo_length a rest).
  rewrite Nat.sub_0_r. destruct rest; simpl in *; nia.
Qed.

Lemma altercationAlerts_pairs ppl : altercationAlerts ppl = altercationPairs ppl.
Proof.
  unfold altercationAlerts. destruct ppl as [|a [|b rest]]; done.
Qed.

Lemma detect_alerts f st :
  (detect f st).2
  = (trackFrame (now f) (prevBboxRef st) (frameBboxes f) (personHistoryRef st)).2
    ++ altercationAlerts (people (frameClassified f))
    ++ rushAlerts (people (frameClassified f)) (prevCountRef st)
    ++ animalAlerts (predictions f)
    ++ overcrowdingAlerts (frameCount (frameClassified f)).
Proof.
  unfold detect, frameBboxes, frameClassified, frameCount.
  destruct (trackFrame _ _ _ _) as [h a]. simpl. by rewrite people_length.
Qed.

End AlertFacts.

Section AlertKinds.

Lemma detect_alert_cases (f : Frame) (st : DetectorState) (a : Alert) :
  a ∈ (detect f st).2 →
  let n := frameCount (frameClassified f) in
  a = fallAlert
  ∨ (a = altercationAlert ∧ (2 ≤ n)%Z)
  ∨ (a = rushAlert ∧ (prevCountRef st + 3 < n)%Z)
  ∨ (∃ p, p ∈ predictions f ∧ class p ∈ species ∧ (0.45 < score p)%Q
          ∧ a = animalAlert (class p))
  ∨ (a = overcrowdingAlert n ∧ (8 < n)%Z).
Proof.
  intros Hi n. rewrite detect_alerts in Hi.
  rewrite !elem_of_app in Hi. destruct Hi as [H|[H|[H|[H|H]]]].
  - left. pose proof (trackFrame_alerts (now f) (prevBboxRef st) (frameBboxes f)
                        (personHistoryRef st)) as Hall.
    rewrite Forall_forall in Hall. symmetry. by apply Hall.
  - right. left. unfold altercationAlerts in H.
    destruct (Nat.leb_spec 2 (length (people (frameClassified f)))) as [Hn|];
      [|by apply elem_of_nil in H].
    split.
    + pose proof (altercationPairs_only (people (frameClassified f))) as Hall.
      rewrite Forall_forall in Hall. symmetry. by apply Hall.
    + unfold n, frameCount. rewrite people_length in Hn. lia.
  - right. right. left. unfold rushAlerts in H. rewrite people_length in H.
    fold (frameCount (frameClassified f)) in H. fold n in H.
    destruct (Z.ltb_spec (prevCountRef st + 3) n); [|by apply elem_of_nil in H].
    apply list_elem_of_singleton in H. done.
  - right. right. right. left. unfold animalAlerts in H.
    apply list_elem_of_In, in_map_iff in H as (p & <- & Hp).
    apply filter_In in Hp as [Hp Han]. unfold isAnimal in Han.
    apply andb_prop in Han as [Hsp Hsc].
    exists p. split; [by apply list_elem_of_In|].
    split; [by apply bool_decide_eq_true in Hsp|].
    split; [by apply Qgtb_gt | done].
  - right. right. right. right. unfold overcrowdingAlerts in H. fold n in H.
    destruct (Z.ltb_spec 8 n); [|by apply elem_of_nil in H].
    apply list_elem_of_singleton in H. done.
Qed.

Lemma detect_alert_severity (f : Frame) (st : DetectorState) (a : Alert) :
  a ∈ (detect f st).2 → alertSeverity a ≠ info.
Proof.
  intros Hi.
  destruct (detect_alert_cases f st a Hi)
    as [->|[[-> _]|[[-> _]|[(p & _ & _ & _ & ->)|[-> _]]]]]; done.
Qed.

End AlertKinds.

(** X6.  Every [onAlert] call of a detection cycle is one of five: the
    fall alert; the altercation alert, with at least two people in the
    frame; the rush alert, with the count more than 3 above the previous
    frame's; an animal alert naming the class of a prediction that is a dog,
    cat, bird or horse with score above 0.45; or the overcrowding alert
    carrying the frame's count, which is above 8.  None has severity
    info. *)
Theorem detect_alert_kinds (f : Frame) (st : DetectorState) (i : nat) (a : Alert) :
  (detect f st).2 !! i = Some a →
  let n := frameCount (frameClassified f) in
  (a = fallAlert
   ∨ (a = altercationAlert ∧ (2 ≤ n)%Z)
   ∨ (a = rushAlert ∧ (prevCountRef st + 3 < n)%Z)
   ∨ (∃ p, p ∈ predictions f ∧ class p ∈ species ∧ (0.45 < score p)%Q
           ∧ a = animalAlert (class p))
   ∨ (a = overcrowdingAlert n ∧ (8 < n)%Z))
  ∧ alertSeverity a ≠ info.
Proof.
  intros Hi n. apply list_elem_of_lookup_2 in Hi.
  split; [by apply detect_alert_cases | by eapply detect_alert_severity].
Qed.

Lemma detect_alert_kinds_witness :
  let n := frameCount (frameClassified dogFrame) in
  (animalAlert "dog" = fallAlert
   ∨ (animalAlert "dog" = altercationAlert ∧ (2 ≤ n)%Z)
   ∨ (animalAlert "dog" = rushAlert ∧ (prevCountRef initialState + 3 < n)%Z)
   ∨ (∃ p, p ∈ predictions dogFrame ∧ class p ∈ species ∧ (0.45 < score p)%Q
           ∧ animalAlert "dog" = animalAlert (class p))
   ∨ (animalAlert "dog" = overcrowdingAlert n ∧ (8 < n)%Z))
  ∧ alertSeverity (animalAlert "dog") ≠ info.
Proof.
  apply (detect_alert_kinds dogFrame initialState 0 (animalAlert "dog")).
  by vm_compute.
Defined.

(** X7.  A frame raises at most one fall alert per person and at most one
    altercation alert per pair of people, so none of the latter with fewer
    than two people; every alert of the double loop is the altercation
    alert. *)
Theorem alert_counts_bounded (f : Frame) (st : DetectorState) :
  let ppl := people (frameClassified f) in
  length (trackFrame (now f) (prevBboxRef st) (frameBboxes f) (personHistoryRef st)).2
  ≤ length ppl
  ∧ 2 * length (altercationAlerts ppl) ≤ length ppl * (length ppl - 1)
  ∧ Forall (eq altercationAlert) (altercationAlerts ppl).
Proof.
  intros ppl. split; [|split].
  - etrans; [apply trackFrame_alerts_length|].
    unfold frameBboxes. fold (frameClassified f). by rewrite length_map.
  - rewrite altercationAlerts_pairs. apply altercationPairs_length.
  - rewrite altercationAlerts_pairs. apply altercationPairs_only.
Qed.

Section AltercationFacts.

Lemma Qltb_proper (x x' y y' : Q) : (x == x')%Q → (y == y')%Q → Qltb x y = Qltb x' y'.
Proof. intros Hx Hy. unfold Qltb. by rewrite (Qcompare_comp x x' Hx y y' Hy). Qed.

(** Being too close does not depend on which of the two comes first. *)
Lemma tooClose_sym a b : tooClose a b = tooClose b a.
Proof.
  unfold tooClose.
  destruct (center (bbox a)) as [acx acy], (center (bbox b)) as [bcx bcy].
  apply (f_equal2 andb); apply Qltb_proper; unfold dist2; try ring;
    rewrite (Qplus_comm (bw (bbox a)) (bw (bbox b))); reflexivity.
Qed.

Lemma closeTo_perm a (l l' : list DetectedObject) :
  l ≡ₚ l' →
  length (flat_map (λ b, if tooClose a b then [altercationAlert] else []) l)
  = length (flat_map (λ b, if tooClose a b then [altercationAlert] else []) l').
Proof. intros H. apply Permutation_length. by apply Permutation_flat_map. Qed.

Lemma altercationPairs_perm (l l' : list DetectedObject) :
  l ≡ₚ l' → length (altercationPairs l) = length (altercationPairs l').
Proof.
  induction 1 as [|x l l' Hperm IH|x y l|l l' l'' _ IH1 _ IH2].
  - done.
  - simpl. rewrite !length_app, IH. f_equal. by apply closeTo_perm.
  - simpl. rewrite !length_app. rewrite (tooClose_sym y x).
    destruct (tooClose x y); simpl; lia.
  - congruence.
Qed.

End AltercationFacts.

(** X8.  The altercation alerts of a frame do not depend on the order in
    which the model lists the people: reordering them gives the same
    alerts. *)
Theorem altercation_order_independent (ppl ppl' : list DetectedObject) :
  ppl ≡ₚ ppl' → altercationAlerts ppl = altercationAlerts ppl'.
Proof.
  intros Hperm. rewrite !altercationAlerts_pairs.
  pose proof (altercationPairs_perm _ _ Hperm) as Hlen.
  transitivity (replicate (length (altercationPairs ppl)) altercationAlert).
  - symmetry. apply replicate_as_Forall. split; [done | apply altercationPairs_only].
  - apply replicate_as_Forall. split; [done | apply altercationPairs_only].
Qed.

Lemma altercation_order_independent_witness :
  altercationAlerts [obj samplePerson; obj sampleChild; sampleFaint]
  = altercationAlerts [obj sampleChild; obj samplePerson; sampleFaint].
Proof.
  apply altercation_order_independent. apply perm_swap.
Defined.

(** ** Identity keys *)

Section KeyFacts.

Lemma pretty_N_char_digit x : isDigit (pretty_N_char x) = true.
Proof. unfold pretty_N_char. by repeat case_match. Qed.

Lemma pretty_N_go_digits x s :
  allChars isDigit s = true → allChars isDigit (pretty_N_go x s) = true.
Proof.
  revert s. induction (N.lt_wf_0 x) as [x _ IH]; intros s Hs.
  assert (x = 0 ∨ 0 < x)%N as [->|Hx] by lia.
  - by rewrite pretty_N_go_0.
  - rewrite pretty_N_go_step by done. apply IH; [by apply N.div_lt|].
    simpl. by rewrite pretty_N_char_digit.
Qed.

Lemma pretty_N_go_length x s :
  String.length s ≤ String.length (pretty_N_go x s).
Proof.
  revert s. induction (N.lt_wf_0 x) as [x _ IH]; intros s.
  assert (x = 0 ∨ 0 < x)%N as [->|Hx] by lia.
  - by rewrite pretty_N_go_0.
  - rewrite pretty_N_go_step by done.
    etrans; [|apply IH; by apply N.div_lt]. simpl. lia.
Qed.

Lemma pretty_N_digits (x : N) :
  allChars isDigit (pretty x) = true ∧ pretty x ≠ "".
Proof.
  unfold pretty, pretty_N. case_decide as Hx; [done|]. split.
  - by apply pretty_N_go_digits.
  - intros Hempty. pose proof (pretty_N_go_length (x `div` 10)
      (String (pretty_N_char (x `mod` 10)) "")) as Hlen.
    rewrite <- pretty_N_go_step in Hlen by lia. rewrite Hempty in Hlen.
    simpl in Hlen. lia.
Qed.

Lemma pretty_nat_digits (n : nat) :
  allChars isDigit (pretty n) = true ∧ pretty n ≠ "".
Proof. apply pretty_N_digits. Qed.

Lemma allChars_app P s1 s2 :
  allChars P (s1 +:+ s2) = allChars P s1 && allChars P s2.
Proof. induction s1 as [|a s1 IH]; simpl; [done|]. by rewrite IH, andb_assoc. Qed.

Lemma allChars_weaken (P Q : Ascii.ascii → bool) s :
  (∀ a, P a = true → Q a = true) → allChars P s = true → allChars Q s = true.
Proof.
  intros HPQ. induction s as [|a s IH]; simpl; [done|].
  intros H. apply andb_prop in H as [Ha Hs]. by rewrite (HPQ a Ha), IH.
Qed.

Lemma pretty_Z_chars (z : Z) : allChars isDigitOrDash (pretty z) = true.
Proof.
  assert (∀ p : positive, allChars isDigitOrDash (pretty p) = true) as Hpos.
  { intros p. apply (allChars_weaken isDigit); [|apply (pretty_N_digits (Npos p))].
    intros a Ha. unfold isDigitOrDash. by rewrite Ha. }
  unfold pretty, pretty_Z. destruct z as [|p|p]; [done|apply Hpos|].
  rewrite allChars_app. by rewrite Hpos.
Qed.

(** Two printed numbers that are followed by a character no number
    contains, and by a rest, can be read back from the whole. *)
Lemma number_split (sep : Ascii.ascii) s1 s2 r1 r2 :
  isDigitOrDash sep = false →
  allChars isDigitOrDash s1 = true → allChars isDigitOrDash s2 = true →
  s1 +:+ String sep r1 = s2 +:+ String sep r2 → s1 = s2 ∧ r1 = r2.
Proof.
  intros Hsep. revert s2.
  induction s1 as [|a s1 IH]; intros [|b s2] H1 H2 Heq; simpl in *.
  - by simplify_eq/=.
  - injection Heq as <- _. apply andb_prop in H2 as [H2 _]. congruence.
  - injection Heq as -> _. apply andb_prop in H1 as [H1 _]. congruence.
  - injection Heq as -> Heq.
    apply andb_prop in H1 as [_ H1]. apply andb_prop in H2 as [_ H2].
    destruct (IH s2 H1 H2 Heq) as [-> ->]. done.
Qed.

Lemma underscore_split s1 s2 r1 r2 :
  allChars isDigitOrDash s1 = true → allChars isDigitOrDash s2 = true →
  s1 +:+ "_" +:+ r1 = s2 +:+ "_" +:+ r2 → s1 = s2 ∧ r1 = r2.
Proof. by apply number_split. Qed.

Lemma freshKey_inj now now' ci ci' :
  freshKey now ci = freshKey now' ci' → now = now' ∧ ci = ci'.
Proof.
  unfold freshKey. intros H. apply (inj (String.app "person_new_")) in H.
  apply underscore_split in H as [Hnow Hci]; [|apply pretty_Z_chars..].
  split; [by apply (inj pretty) | by apply (inj pretty)].
Qed.

Lemma indexKey_inj pi pi' : indexKey pi = indexKey pi' → pi = pi'.
Proof.
  unfold indexKey. intros H. apply (inj (String.app "person_")) in H.
  by apply (inj pretty).
Qed.

Lemma indexKey_not_fresh pi now ci : indexKey pi ≠ freshKey now ci.
Proof.
  unfold indexKey, freshKey. intros H.
  change ("person_new_" +:+ pretty now +:+ "_" +:+ pretty ci)
    with ("person_" +:+ "new_" +:+ pretty now +:+ "_" +:+ pretty ci) in H.
  apply (inj (String.app "person_")) in H.
  destruct (pretty_nat_digits pi) as [Hd _]. rewrite H in Hd. by vm_compute in Hd.
Qed.

Lemma detectionKey_forms now prevBboxes matched ci b :
  detectionKey now prevBboxes matched ci b = freshKey now ci
  ∨ ∃ pi, pi < length prevBboxes
          ∧ detectionKey now prevBboxes matched ci b = indexKey pi.
Proof.
  destruct (detectionKey_cases now prevBboxes matched ci b)
    as [[H _]|(pi & pbox & H & Hpi & _)].
  - by left.
  - right. exists pi. split; [by apply lookup_lt_Some in Hpi | done].
Qed.

End KeyFacts.

(** X9.  A detection is filed either under [person_] followed by an index
    into the previous frame's boxes, or under a fresh key made of the clock
    reading and its own index.  The two forms never coincide, and each can
    be read back: equal index keys have equal indices, and equal fresh
    keys have equal clock readings and equal detection indices. *)
Theorem identity_keys now prevBboxes matched ci b :
  (detectionKey now prevBboxes matched ci b = freshKey now ci
   ∨ ∃ pi, pi < length prevBboxes
           ∧ detectionKey now prevBboxes matched ci b = indexKey pi)
  ∧ (∀ pi now' ci', indexKey pi ≠ freshKey now' ci')
  ∧ (∀ pi pi', indexKey pi = indexKey pi' → pi = pi')
  ∧ (∀ now' ci' now'' ci'',
        freshKey now' ci' = freshKey now'' ci'' → now' = now'' ∧ ci' = ci'').
Proof.
  split; [apply detectionKey_forms|]. split; [apply indexKey_not_fresh|].
  split; [apply indexKey_inj | intros; by apply freshKey_inj].
Qed.

(** ** The tracker after a frame without people *)

Section FreshFacts.

(** A loop invariant that may mention the index reached. *)
Lemma forEachFrom_indexed {A St : Type} (P : nat → St → Prop)
      (body : nat → A → St → St) (l : list A) (s0 : St) :
  (∀ i x s, l !! i = Some x → P i s → P (S i) (body i x s)) →
  P 0 s0 → P (length l) (forEachFrom body 0 l s0).
Proof.
  intros Hstep.
  assert (∀ (rest pre : list A) s,
             pre ++ rest = l → P (length pre) s →
             P (length l) (forEachFrom body (length pre) rest s)) as H.
  { induction rest as [|x rest IH]; intros pre s Hl Hs; simpl.
    - rewrite app_nil_r in Hl. by subst.
    - replace (S (length pre)) with (length (pre ++ [x]))
        by (rewrite length_app; simpl; lia).
      apply IH; [by rewrite <- app_assoc|].
      rewrite length_app. simpl. rewrite Nat.add_1_r. apply Hstep; [|done].
      rewrite <- Hl. rewrite lookup_app_r by lia. by rewrite Nat.sub_diag. }
  intros H0. by apply (H l [] s0).
Qed.

Lemma detectionKey_no_previous now matched ci b :
  detectionKey now [] matched ci b = freshKey now ci.
Proof. unfold detectionKey. by destruct (center b). Qed.

End FreshFacts.

(** X10.  When the previous frame held no people (as in the first frame
    and after every empty one), and the frame's fresh keys are not in use,
    the tracker loop starts a new identity for each person of the frame,
    holding that person's box as its only position and the frame's clock
    reading as first-seen time; it raises no fall alert and leaves every
    other identity as it was. *)
Theorem fresh_identities now currentBboxes history :
  (∀ ci, ci < length currentBboxes → history !! freshKey now ci = None) →
  let after := trackFrame now [] currentBboxes history in
  after.2 = []
  ∧ (∀ ci b, currentBboxes !! ci = Some b →
             after.1 !! freshKey now ci = Some (newEntry now b))
  ∧ (∀ k, (∀ ci, ci < length currentBboxes → k ≠ freshKey now ci) →
          after.1 !! k = history !! k).
Proof.
  intros Hfree after. subst after. unfold trackFrame, forEach.
  set (P := λ (i : nat) (s : gmap string HistoryEntry * list Alert),
              s.2 = []
              ∧ (∀ ci b, ci < i → currentBboxes !! ci = Some b →
                         s.1 !! freshKey now ci = Some (newEntry now b))
              ∧ (∀ k, (∀ ci, ci < i → k ≠ freshKey now ci) → s.1 !! k = history !! k)).
  assert (P (length currentBboxes)
            (forEachFrom (trackOne now [] ∅) 0 currentBboxes (history, []))) as HP.
  { apply forEachFrom_indexed.
    - intros i b [h a] Hb (Ha & Hnew & Hold). cbn [fst snd] in *. subst a.
      rewrite trackOne_eq, detectionKey_no_previous.
      assert (h !! freshKey now i = None) as Hi.
      { rewrite Hold.
        - apply Hfree. by apply lookup_lt_Some in Hb.
        - intros ci Hci Heq. apply freshKey_inj in Heq as [_ ->]. lia. }
      rewrite Hi. unfold P. cbn [fst snd] in *. split; [done|]. split.
      + intros ci b' Hci Hb'. destruct (decide (ci = i)) as [->|Hne].
        * rewrite lookup_insert_eq. rewrite Hb in Hb'. by injection Hb' as <-.
        * rewrite lookup_insert_ne.
          -- apply Hnew; [lia|done].
          -- intros Heq. apply freshKey_inj in Heq as [_ ->]. done.
      + intros k Hk. rewrite lookup_insert_ne.
        * apply Hold. intros ci Hci. apply Hk. lia.
        * intros <-. by apply (Hk i); [lia|].
    - split; [done|]. split; [intros; lia | done]. }
  destruct HP as (Ha & Hnew & Hold). split; [done|]. split; [|done].
  intros ci b Hb. apply Hnew; [|done]. by apply lookup_lt_Some in Hb.
Qed.

Lemma fresh_identities_witness :
  let after := trackFrame 1000 [] [uprightBox; nearbyBox] ∅ in
  after.2 = []
  ∧ (∀ ci b, [uprightBox; nearbyBox] !! ci = Some b →
             after.1 !! freshKey 1000 ci = Some (newEntry 1000 b))
  ∧ (∀ k, (∀ ci, ci < length [uprightBox; nearbyBox] → k ≠ freshKey 1000 ci) →
          after.1 !! k = (∅ : gmap string HistoryEntry) !! k).
Proof.
  apply (fresh_identities 1000 [uprightBox; nearbyBox] ∅).
  intros ci _. apply lookup_empty.
Defined.

(** ** The sweep and the fate of an identity *)

Section SweepFacts.

Lemma stale_later now now' e : (now ≤ now')%Z → stale now e = true → stale now' e = true.
Proof.
  unfold stale. intros Hle H. apply andb_prop in H as [Ht Hl].
  rewrite Hl, andb_true_r. apply Z.ltb_lt in Ht. apply Z.ltb_lt. lia.
Qed.

Lemma sweep_sweep now now' h :
  (now ≤ now')%Z → sweep now' (sweep now h) = sweep now' h.
Proof.
  intros Hle. apply map_eq. intros k. rewrite !sweep_lookup.
  destruct (h !! k) as [e|]; [|done].
  destruct (stale now e) eqn:Hs; [|done].
  by rewrite (stale_later now now' e Hle Hs).
Qed.

Lemma trackOne_carried k e now prevBboxes matched ci b h a :
  carried k e h → carried k e (trackOne now prevBboxes matched ci b (h, a)).1.
Proof.
  intros (e' & Hk & Hfs & Hlen). unfold carried. rewrite trackOne_lookup.
  case_decide; [|by exists e'].
  eexists. split; [done|]. rewrite Hk. unfold appended. simpl.
  split; [done|]. rewrite pushPosition_length. case_decide; lia.
Qed.

Lemma nonempty_appended now b o : 1 ≤ length (positions (appended now b o)).
Proof.
  unfold appended. simpl. rewrite pushPosition_length. case_decide; lia.
Qed.

End SweepFacts.

(** X11.  The sweep only removes identities; sweeping twice at the same
    clock reading is sweeping once; and a sweep at a later reading makes an
    earlier one redundant. *)
Theorem sweep_algebra (now now' : Z) (h : gmap string HistoryEntry) :
  sweep now h ⊆ h
  ∧ sweep now (sweep now h) = sweep now h
  ∧ ((now ≤ now')%Z → sweep now' (sweep now h) = sweep now' h).
Proof.
  split; [apply map_filter_subseteq|]. split; [|apply sweep_sweep].
  apply sweep_sweep. lia.
Qed.

(** X12.  After any run of detection cycles no identity in the map has an
    empty history, so the sweep's test for fewer than 2 positions singles
    out the identities seen exactly once. *)
Theorem history_nonempty (frames : list Frame) (key : string) (entry : HistoryEntry) :
  personHistoryRef (run frames initialState) !! key = Some entry →
  1 ≤ length (positions entry)
  ∧ (length (positions entry) < 2 ↔ length (positions entry) = 1).
Proof.
  intros Hk.
  assert (1 ≤ length (positions entry)) as H; [|split; [done|lia]].
  revert key entry Hk.
  apply (run_invariant (λ h, ∀ k e, h !! k = Some e → 1 ≤ length (positions e))).
  - intros now prevBboxes matched ci b h a Hh k e. rewrite trackOne_lookup.
    case_decide; [|by apply Hh]. intros [= <-]. apply nonempty_appended.
  - intros now h Hh k e. rewrite sweep_lookup.
    destruct (h !! k) as [e'|] eqn:Hk; [|done].
    destruct (stale now e'); [done|]. intros [= <-]. by eapply Hh.
  - intros k e. simpl. by rewrite lookup_empty.
Qed.

Lemma history_nonempty_witness :
  1 ≤ length (positions (newEntry 1000 (bbox (obj samplePerson))))
  ∧ (length (positions (newEntry 1000 (bbox (obj samplePerson)))) < 2
     ↔ length (positions (newEntry 1000 (bbox (obj samplePerson)))) = 1).
Proof.
  apply (history_nonempty [sampleFrame] "person_new_1000_0").
  vm_compute. reflexivity.
Defined.

(** X13.  What one detection cycle does to an identity already in the
    map: it is dropped only if it was first seen more than 60000 ms before
    the frame's clock reading and held fewer than 2 positions; otherwise it
    stays under its key with the same first-seen time and a history that is
    no shorter, or full. *)
Theorem identity_fate (f : Frame) (st : DetectorState) (key : string) (entry : HistoryEntry) :
  personHistoryRef st !! key = Some entry →
  match personHistoryRef (detect f st).1 !! key with
  | None => (60000 < now f - firstSeen entry)%Z ∧ length (positions entry) < 2
  | Some entry' =>
      firstSeen entry' = firstSeen entry
      ∧ Nat.min (length (positions entry)) 30 ≤ length (positions entry')
  end.
Proof.
  intros Hk. rewrite detect_history.
  assert (carried key entry
            (trackFrame (now f) (prevBboxRef st) (frameBboxes f)
                        (personHistoryRef st)).1) as (e' & Hk' & Hfs & Hlen).
  { apply (trackFrame_invariant (carried key entry)).
    - intros. by apply trackOne_carried.
    - exists entry. split; [done|]. split; [done|]. lia. }
  rewrite sweep_lookup, Hk'. destruct (stale (now f) e') eqn:Hs; [|done].
  unfold stale in Hs. apply andb_prop in Hs as [Ht Hl].
  apply Z.ltb_lt in Ht. apply Nat.ltb_lt in Hl. rewrite Hfs in Ht. split; [done|lia].
Qed.

Lemma identity_fate_witness :
  match personHistoryRef (detect quietFrame sampleTracked).1 !! "person_0" with
  | None => (60000 < now quietFrame - firstSeen sampleEntry)%Z
            ∧ length (positions sampleEntry) < 2
  | Some entry' =>
      firstSeen entry' = firstSeen sampleEntry
      ∧ Nat.min (length (positions sampleEntry)) 30 ≤ length (positions entry')
  end.
Proof.
  apply (identity_fate quietFrame sampleTracked "person_0" sampleEntry).
  vm_compute. reflexivity.
Defined.

(** ** Keys and cleaned texts *)

Section TextFacts.

(** Case analysis on every comparison of code units in the goal. *)
Ltac unit_cases :=
  repeat (simpl;
          match goal with
          | |- context [N.leb ?a ?b] => destruct (N.leb_spec a b)
          | |- context [N.eqb ?a ?b] => destruct (N.eqb_spec a b)
          end);
  simpl; try done; try lia.

Lemma isLetterOrSpace_lower c : isLetterOrSpace (toLowerCase c) = isLetterOrSpace c.
Proof.
  unfold toLowerCase. destruct (N.leb_spec 65 c), (N.leb_spec c 90); simpl; try done.
  unfold isLetterOrSpace. unit_cases.
Qed.

Lemma toLowerCase_idem c : toLowerCase (toLowerCase c) = toLowerCase c.
Proof.
  unfold toLowerCase at 2. destruct (N.leb_spec 65 c), (N.leb_spec c 90); simpl;
    unfold toLowerCase; unit_cases.
Qed.

Lemma filter_map_lower m :
  List.filter isLetterOrSpace (List.map toLowerCase m)
  = List.map toLowerCase (List.filter isLetterOrSpace m).
Proof.
  induction m as [|c m IH]; simpl; [done|].
  rewrite isLetterOrSpace_lower. destruct (isLetterOrSpace c); simpl; by rewrite IH.
Qed.

Lemma map_lower_idem m :
  List.map toLowerCase (List.map toLowerCase m) = List.map toLowerCase m.
Proof. rewrite List.map_map. apply List.map_ext. intros c. apply toLowerCase_idem. Qed.

Lemma filter_all {A} (f : A → bool) l : Forall (λ x, f x = true) l → List.filter f l = l.
Proof. induction 1 as [|x l Hx _ IH]; simpl; [done|]. by rewrite Hx, IH. Qed.

Lemma map_id_on {A} (f : A → A) l : Forall (λ x, f x = x) l → List.map f l = l.
Proof. induction 1 as [|x l Hx _ IH]; simpl; [done|]. by rewrite Hx, IH. Qed.

Lemma dedupKey_idem m : dedupKey (dedupKey m) = dedupKey m.
Proof.
  destruct (dedupKey_shape m) as [Hlen Hall].
  unfold dedupKey at 1.
  rewrite filter_all.
  - rewrite map_id_on; [by apply take_ge|].
    eapply Forall_impl; [exact Hall|]. intros c Hc. simpl in Hc.
    unfold toLowerCase. unit_cases.
  - eapply Forall_impl; [exact Hall|]. intros c Hc. simpl in Hc.
    unfold isLetterOrSpace. unit_cases.
Qed.

Lemma dedupKey_skip m1 c m2 :
  isLetterOrSpace c = false → dedupKey (m1 ++ c :: m2) = dedupKey (m1 ++ m2).
Proof.
  intros Hc. unfold dedupKey. rewrite !List.filter_app. simpl. by rewrite Hc.
Qed.

Lemma dedupKey_lower m : dedupKey (List.map toLowerCase m) = dedupKey m.
Proof. unfold dedupKey. by rewrite filter_map_lower, map_lower_idem. Qed.

Lemma js_app s1 s2 : js (s1 +:+ s2) = js s1 ++ js s2.
Proof.
  unfold js. induction s1 as [|a s1 IH]; simpl; [done|]. by rewrite IH.
Qed.

Lemma js_inj s1 s2 : js s1 = js s2 → s1 = s2.
Proof.
  unfold js. revert s2. induction s1 as [|a s1 IH]; intros [|b s2] H;
    simpl in H; try done.
  injection H as Ha Hs. apply (f_equal Ascii.ascii_of_N) in Ha.
  rewrite !Ascii.ascii_N_embedding in Ha. subst. f_equal. by apply IH.
Qed.

(** Digits and the minus sign are dropped from a key. *)
Lemma filter_number s :
  allChars isDigitOrDash s = true → List.filter isLetterOrSpace (js s) = [].
Proof.
  unfold js. induction s as [|a s IH]; simpl; [done|].
  intros H. apply andb_prop in H as [Ha Hs]. rewrite (IH Hs).
  assert (isLetterOrSpace (Ascii.N_of_ascii a) = false) as ->; [|done].
  unfold isDigitOrDash, isDigit in Ha. unfold isLetterOrSpace.
  set (n := Ascii.N_of_ascii a) in *. revert Ha. unit_cases.
Qed.

Lemma last_rev {A} (l : list A) : last (rev l) = head l.
Proof. rewrite rev_alt. apply (last_reverse l). Qed.





End TextFacts.

(** X14.  The voice key ignores what is not a letter or a space and
    ignores case: dropping such a character from a message, or lowering
    its letters, leaves the key as it is; and the key of a key is the key
    itself. *)
Theorem dedupKey_insensitive (m m1 m2 : jsstring) (c : N) :
  dedupKey (dedupKey m) = dedupKey m
  ∧ (isLetterOrSpace c = false → dedupKey (m1 ++ c :: m2) = dedupKey (m1 ++ m2))
  ∧ dedupKey (List.map toLowerCase m) = dedupKey m.
Proof.
  split; [apply dedupKey_idem|]. split; [apply dedupKey_skip | apply dedupKey_lower].
Qed.

(** X15.  Overcrowding alerts for different counts are different log
    messages but share one voice key, whatever the count: the log records
    each change of the count while the voice cooldown treats them as the
    same announcement. *)
Theorem overcrowding_shares_key (n n' : Z) :
  dedupKey (alertMessage (overcrowdingAlert n)) = overcrowdingKey
  ∧ (alertMessage (overcrowdingAlert n) = alertMessage (overcrowdingAlert n') → n = n').
Proof.
  split.
  - unfold overcrowdingAlert, dedupKey. cbn [alertMessage].
    rewrite !js_app, !List.filter_app.
    rewrite (filter_number (pretty n)) by apply pretty_Z_chars. by vm_compute.
  - unfold overcrowdingAlert. cbn [alertMessage]. intros H. apply js_inj in H.
    apply (inj (String.app "Overcrowding alert! ")) in H.
    apply number_split in H as [H _]; [by apply (inj pretty) | done |..];
      apply pretty_Z_chars.
Qed.

Section CleanFacts.




End CleanFacts.


(** ** The queue between calls *)

Section IdleFacts.

(** After [speakNext], with an engine, nothing waits while the hook is
    idle. *)
Lemma speakNext_no_waiting s :
  synthRef s = true →
  isSpeakingRef (speakNext s) = false → queueRef (speakNext s) = [].
Proof.
  intros Hsy.
  destruct (speakNext_cases s) as [[-> [H|[H|H]]]|(text & rest & _ & _ & _ & ->)];
    try done; congruence.
Qed.

Lemma step_no_waiting e s :
  synthRef s = true →
  (isSpeakingRef s = false → queueRef s = []) →
  isSpeakingRef (step e s) = false → queueRef (step e s) = [].
Proof.
  intros Hsy Hs. destruct e as [t1 t2 m c| |]; unfold step.
  - rewrite speak_cases. destruct (accepts _ _ _ _); [|done].
    by apply speakNext_no_waiting.
  - unfold finish. destruct (pending s); [done|]. by apply speakNext_no_waiting.
  - unfold finish. destruct (pending s); [done|]. by apply speakNext_no_waiting.
Qed.

Lemma play_no_waiting events s :
  synthRef s = true →
  (isSpeakingRef s = false → queueRef s = []) →
  isSpeakingRef (play events s) = false → queueRef (play events s) = [].
Proof.
  revert s. induction events as [|e events IH]; intros s Hsy Hs; [done|].
  rewrite play_cons. apply IH.
  - by destruct (step_enabled e s) as [_ ->].
  - by apply step_no_waiting.
Qed.

Lemma play_enabled events s :
  voiceEnabled (play events s) = voiceEnabled s
  ∧ synthRef (play events s) = synthRef s.
Proof.
  revert s. induction events as [|e events IH]; intros s; [done|].
  rewrite play_cons. destruct (IH (step e s)) as [-> ->]. apply step_enabled.
Qed.

Lemma play_without_engine events s :
  synthRef s = false → pending s = [] → play events s = s.
Proof.
  intros Hsy Hp. induction events as [|e events IH]; [done|].
  rewrite play_cons.
  assert (step e s = s) as ->; [|done].
  destruct e as [t1 t2 m c| |]; unfold step.
  - apply speak_switched_off. by right.
  - unfold finish. by rewrite Hp.
  - unfold finish. by rewrite Hp.
Qed.

(** Completions alone empty the queue, one text at a time, in order. *)
Lemma drain q :
  ∀ s, synthRef s = true → singleFlight s →
       (isSpeakingRef s = false → queueRef s = []) →
       queueRef s = q →
       let s' := play (replicate (S (length q)) Ended) s in
       queueRef s' = [] ∧ pending s' = [] ∧ isSpeakingRef s' = false
       ∧ uttered s' = uttered s ++ q.
Proof.
  induction q as [|text rest IH]; intros s Hsy Hsf Hwait Hq s'; subst s'.
  - simpl. unfold finish.
    destruct (pending s) as [|u [|u' l]] eqn:Hp.
    + unfold singleFlight in Hsf. rewrite Hp in Hsf. by rewrite app_nil_r.
    + unfold onend, speakNext. simpl. rewrite Hsy, Hq. simpl.
      by rewrite app_nil_r.
    + unfold singleFlight in Hsf. by rewrite Hp in Hsf.
  - assert (isSpeakingRef s = true) as Hbusy.
    { destruct (isSpeakingRef s) eqn:Hb; [done|]. rewrite Hwait in Hq; done. }
    destruct (pending s) as [|u [|u' l]] eqn:Hp.
    + unfold singleFlight in Hsf. rewrite Hp in Hsf. congruence.
    + change (replicate (S (length (text :: rest))) Ended)
        with (Ended :: replicate (S (length rest)) Ended).
      rewrite play_cons.
      set (s1 := {| synthRef := true; queueRef := rest; isSpeakingRef := true;
                    lastSpokenRef := lastSpokenRef s; voiceEnabled := voiceEnabled s;
                    isSpeaking := true; pending := [text];
                    uttered := uttered s ++ [text] |}).
      assert (step Ended s = s1) as ->.
      { unfold step, finish. rewrite Hp. unfold onend, speakNext. simpl.
        by rewrite Hsy, Hq. }
      destruct (IH s1) as (H1 & H2 & H3 & H4).
      * done.
      * unfold singleFlight. simpl. split; [done | apply last_snoc].
      * simpl. discriminate.
      * done.
      * rewrite H1, H2, H3, H4. simpl. by rewrite <- app_assoc.
    + unfold singleFlight in Hsf. by rewrite Hp in Hsf.
Qed.

End IdleFacts.

(** X17.  Where the browser has no speech engine, no call and no event
    ever changes the hook: nothing is queued and no time is recorded.
    Where it has one, a text never waits while the hook is idle: after any
    run of calls and completions, if no utterance is in progress then the
    queue is empty. *)
Theorem queue_never_waits (events : list Event) :
  play events (initialVoice false) = initialVoice false
  ∧ (isSpeakingRef (play events (initialVoice true)) = false →
     queueRef (play events (initialVoice true)) = []).
Proof.
  split; [by apply play_without_engine|]. by apply play_no_waiting.
Qed.

(** X18.  Every text that was accepted is announced: from any state the
    hook can reach, as many completions as there are queued texts, and one
    more for an utterance in progress, leave the queue empty and the hook
    idle, with the queued texts handed to the engine in queue order; an
    error completion does what a normal one does. *)
Theorem queue_drains (events : list Event) :
  let s := play events (initialVoice true) in
  let s' := play (replicate (S (length (queueRef s))) Ended) s in
  (queueRef s' = [] ∧ pending s' = [] ∧ isSpeakingRef s' = false
   ∧ uttered s' = uttered s ++ queueRef s)
  ∧ ∀ s0, step Failed s0 = step Ended s0.
Proof.
  intros s s'. split; [|done]. apply drain; [| | |done].
  - unfold s. by destruct (play_enabled events (initialVoice true)) as [_ ->].
  - by apply play_singleFlight.
  - by apply play_no_waiting.
Qed.

(** ** Cancelling and switching the voice *)

Section SwitchFacts.

Lemma cancelSpeech_idem s : cancelSpeech (cancelSpeech s) = cancelSpeech s.
Proof. unfold cancelSpeech. simpl. by destruct (synthRef s). Qed.

Lemma speak_within_cooldown t1 t2 message cooldownMs s t :
  lastSpokenRef s !! dedupKey message = Some t →
  (t1 - t < cooldownMs)%Z →
  speak t1 t2 message cooldownMs s = s.
Proof.
  intros Ht Hlt. apply speak_discarded. unfold accepts. rewrite Ht. simpl.
  apply Z.ltb_lt in Hlt. rewrite Hlt. simpl. by rewrite andb_false_r.
Qed.

End SwitchFacts.

(** X19.  [cancelSpeech] empties the queue and marks the hook idle but
    keeps the table of recorded times: a message whose cooldown is still
    running is discarded after the cancel as it was before, even if the
    cancel removed it from the queue unspoken.  Cancelling twice is
    cancelling once. *)
Theorem cancel_keeps_cooldowns (s : VoiceState) (m : jsstring) (c t t1 t2 : Z) :
  lastSpokenRef s !! dedupKey m = Some t →
  (t1 - t < c)%Z →
  let s' := cancelSpeech s in
  queueRef s' = [] ∧ isSpeakingRef s' = false ∧ isSpeaking s' = false
  ∧ lastSpokenRef s' = lastSpokenRef s ∧ voiceEnabled s' = voiceEnabled s
  ∧ cancelSpeech s' = s'
  ∧ speak t1 t2 m c s' = s'.
Proof.
  intros Ht Hlt s'. do 5 (split; [done|]). split; [apply cancelSpeech_idem|].
  by apply (speak_within_cooldown _ _ _ _ _ t).
Qed.

Lemma cancel_keeps_cooldowns_witness :
  let s' := cancelSpeech afterFire in
  queueRef s' = [] ∧ isSpeakingRef s' = false ∧ isSpeaking s' = false
  ∧ lastSpokenRef s' = lastSpokenRef afterFire
  ∧ voiceEnabled s' = voiceEnabled afterFire
  ∧ cancelSpeech s' = s'
  ∧ speak 103000 103000 (js "fire") 8000 s' = s'.
Proof.
  apply (cancel_keeps_cooldowns afterFire (js "fire") 8000 100000 103000 103000).
  - by vm_compute.
  - lia.
Defined.



(** ** Chart and history buffers *)

Section RecorderFacts.

Import Recorder.

Lemma chartAfter_snoc ticks t :
  chartAfter (ticks ++ [t]) = chartTick t (chartAfter ticks).
Proof. unfold chartAfter. by rewrite foldl_app. Qed.

Lemma historyAfter_snoc ticks t :
  historyAfter (ticks ++ [t]) = historyTick t (historyAfter ticks).
Proof. unfold historyAfter. by rewrite foldl_app. Qed.

Lemma chartAfter_eq ticks :
  chartAfter ticks = sliceLast 60 (List.map chartPoint (whileRunning ticks)).
Proof.
  induction ticks as [|t ticks IH] using rev_ind; [done|].
  rewrite chartAfter_snoc. unfold chartTick, whileRunning.
  rewrite List.filter_app. simpl. destruct (isRunning t); simpl.
  - rewrite List.map_app. simpl. rewrite IH. apply sliceLast_snoc_idem. lia.
  - by rewrite app_nil_r.
Qed.

Lemma historyAfter_eq ticks :
  historyAfter ticks = sliceLast 100 (List.map historyRow (whileRunning ticks)).
Proof.
  induction ticks as [|t ticks IH] using rev_ind; [done|].
  rewrite historyAfter_snoc. unfold historyTick, whileRunning.
  rewrite List.filter_app. simpl. destruct (isRunning t); simpl.
  - rewrite List.map_app. simpl. rewrite IH. apply sliceLast_snoc_idem. lia.
  - by rewrite app_nil_r.
Qed.

End RecorderFacts.

(** X21.  After any run of interval firings the chart holds the last 60
    and the history table the last 100 of the snapshots taken while the
    system was running, oldest first; a firing while it is paused records
    nothing.  The chart is drawn once two such snapshots exist, and the
    first row of the history table is the newest snapshot. *)
Theorem buffers_keep_latest (ticks : list Recorder.Tick) :
  let taken := Recorder.whileRunning ticks in
  Recorder.chartAfter ticks = sliceLast 60 (List.map Recorder.chartPoint taken)
  ∧ Recorder.historyAfter ticks = sliceLast 100 (List.map Recorder.historyRow taken)
  ∧ length (Recorder.chartAfter ticks) = Nat.min 60 (length taken)
  ∧ length (Recorder.historyAfter ticks) = Nat.min 100 (length taken)
  ∧ (CrowdChart.chartDrawn (Recorder.chartAfter ticks) = true ↔ 2 ≤ length taken)
  ∧ head (CrowdHistory.historyRows (Recorder.historyAfter ticks))
    = Recorder.historyRow <$> last taken.
Proof.
  intros taken. rewrite chartAfter_eq, historyAfter_eq. fold taken.
  split; [done|]. split; [done|].
  rewrite !sliceLast_length, !length_map.
  split; [done|]. split; [done|]. split.
  - unfold CrowdChart.chartDrawn. rewrite sliceLast_length, length_map.
    destruct (Nat.ltb_spec (Nat.min 60 (length taken)) 2); simpl; split;
      (done || lia).
  - unfold CrowdHistory.historyRows.
    rewrite <- (last_rev (rev _)), rev_involutive, last_sliceLast by lia.
    change (List.map Recorder.historyRow taken) with (Recorder.historyRow <$> taken).
    apply fmap_last.
Qed.

(** ** Alerts on the page *)

Section PageFacts.



Lemma setAlerts_Forall (P : AlertEntry → Prop) entry prev :
  P entry → Forall P prev → Forall P (setAlerts entry prev).
Proof.
  intros He Hp. unfold setAlerts. destruct (repeatsLast _ _); [done|].
  unfold sliceLast. apply Forall_drop, Forall_app. split; [done | by constructor].
Qed.

(** What a run of [onAlert] calls keeps true of the log. *)
Lemma dispatch_log (P : AlertEntry → Prop) clock raised st :
  (∀ t a, a ∈ raised →
          P {| time := t; message := alertMessage a; severity := alertSeverity a |}) →
  length (alerts st) ≤ 50 → Forall P (alerts st) →
  length (alerts (dispatch clock raised st)) ≤ 50
  ∧ Forall P (alerts (dispatch clock raised st)).
Proof.
  intros Hraised Hlen Hall. unfold dispatch, forEach.
  set (body := λ (i : nat) (a : Alert) (st : PageState),
                 let '(time, t1, t2) := clock i in
                 handleAlert time t1 t2 (alertMessage a) (alertSeverity a) st).
  cut (∀ i, length (alerts (forEachFrom body i raised st)) ≤ 50
            ∧ Forall P (alerts (forEachFrom body i raised st))); [by intros H|].
  revert st Hlen Hall.
  induction raised as [|a raised IH]; intros st Hlen Hall i; [done|].
  cbn [forEachFrom]. unfold body at 2 4. apply IH.
  - intros t a' Ha'. apply Hraised. by right.
  - destruct (clock i) as [[t t1] t2]. simpl. by apply setAlerts_length.
  - destruct (clock i) as [[t t1] t2]. simpl. apply setAlerts_Forall; [|done].
    apply Hraised. by left.
Qed.

Lemma appRun_log cycles st :
  length (alerts st.2) ≤ 50 → Forall (λ e, severity e ≠ info) (alerts st.2) →
  length (alerts (appRun cycles st).2) ≤ 50
  ∧ Forall (λ e, severity e ≠ info) (alerts (appRun cycles st).2).
Proof.
  revert st. induction cycles as [|fc cycles IH]; intros st Hlen Hall; [done|].
  change (appRun (fc :: cycles) st) with (appRun cycles (cycle fc st)).
  unfold cycle. destruct (detect fc.1 st.1) as [det raised] eqn:Hd.
  destruct (dispatch_log (λ e, severity e ≠ info) fc.2 raised st.2) as [H1 H2];
    [|done|done|by apply IH].
  intros t a Ha. simpl. apply (detect_alert_severity fc.1 st.1). by rewrite Hd.
Qed.

Lemma badge_counts (log : list AlertEntry) :
  Forall (λ e, severity e ≠ info) log →
  dangerCount log + warningCount log = length log.
Proof.
  unfold dangerCount, warningCount.
  induction 1 as [|e log He _ IH]; simpl; [done|].
  destruct (severity e); [done|..]; simpl; lia.
Qed.

End PageFacts.



(** X23.  With the detector wired to the page, after any run of cycles
    the log holds at most 50 entries and none of severity info, so the
    danger and warning badges of the panel together count every entry; the
    panel lists at most 10 alerts, the newest first. *)
Theorem panel_counts_every_alert (hasSynth : bool) (cycles : list (Frame * Clock)) :
  let log := alerts (appRun cycles (initialState, initialPage hasSynth)).2 in
  length log ≤ 50
  ∧ Forall (λ e, severity e ≠ info) log
  ∧ dangerCount log + warningCount log = length log
  ∧ length (shownAlerts log) = Nat.min 10 (length log)
  ∧ head (shownAlerts log) = last log.
Proof.
  intros log.
  destruct (appRun_log cycles (initialState, initialPage hasSynth)) as [Hlen Hall];
    [simpl; lia | done |].
  fold log in Hlen, Hall.
  split; [done|]. split; [done|]. split; [by apply badge_counts|].
  unfold shownAlerts. split.
  - by rewrite length_rev, sliceLast_length.
  - rewrite <- (last_rev (rev _)), rev_involutive. apply last_sliceLast. lia.
Qed.

(** ** Which identity a detection is filed under *)

(** X24.  In the tracker loop as the code runs it, with the matched set
    empty, each detection of a frame is filed under the key of the previous
    frame's box whose centre is nearest to its own among those closer than
    150 px (squared distance below 22500), the first such box among equally
    near ones; when no previous box is that close it is filed under the
    fresh key of its index. *)
Theorem nearest_previous_box now prevBboxes currentBboxes ci b :
  currentBboxes !! ci = Some b →
  let cx := (center b).1 in
  let cy := (center b).2 in
  ∃ key,
    assignments now prevBboxes currentBboxes !! ci = Some key
    ∧ ((key = freshKey now ci
        ∧ ∀ pj pbox, prevBboxes !! pj = Some pbox →
                     ¬ (centreDist2 cx cy pbox < 22500)%Q)
       ∨ ∃ pi pbox,
           key = indexKey pi ∧ prevBboxes !! pi = Some pbox
           ∧ (centreDist2 cx cy pbox < 22500)%Q
           ∧ ∀ pj pbox', prevBboxes !! pj = Some pbox' →
                         (centreDist2 cx cy pbox' < 22500)%Q →
                         (centreDist2 cx cy pbox <= centreDist2 cx cy pbox')%Q
                         ∧ (pj < pi →
                            (centreDist2 cx cy pbox < centreDist2 cx cy pbox')%Q)).
Proof.
  intros Hb cx cy. exists (detectionKey now prevBboxes ∅ ci b). split.
  { unfold assignments. by rewrite list_lookup_imap, Hb. }
  unfold detectionKey.
  destruct (center b) as [cx' cy'] eqn:Hc. simpl in cx, cy. subst cx cy.
  pose proof (nearestPrev_nearest ∅ cx' cy' prevBboxes) as H.
  unfold nearestAmong in H.
  destruct (nearestPrev prevBboxes ∅ cx' cy') as [[d|] bestKey]; simpl in *.
  - destruct H as (pi & pbox & Hpi & [_ Hnear] & -> & -> & Hmin & Hfirst).
    right. exists pi, pbox. do 3 (split; [done|]).
    intros pj pbox' Hpj Hnear'. split.
    + apply (Hmin pj); [done|]. split; [set_solver | done].
    + intros Hlt. apply (Hfirst pj); [done|done|]. split; [set_solver | done].
  - destruct H as [-> Hnone]. left. split; [done|].
    intros pj pbox Hpj Hnear. apply (Hnone pj pbox Hpj). split; [set_solver | done].
Qed.

Lemma nearest_previous_box_witness :
  let cx := (center nearbyBox).1 in
  let cy := (center nearbyBox).2 in
  ∃ key,
    assignments 1000 [flatBox; uprightBox] [uprightBox; nearbyBox] !! 1 = Some key
    ∧ ((key = freshKey 1000 1
        ∧ ∀ pj pbox, [flatBox; uprightBox] !! pj = Some pbox →
                     ¬ (centreDist2 cx cy pbox < 22500)%Q)
       ∨ ∃ pi pbox,
           key = indexKey pi ∧ [flatBox; uprightBox] !! pi = Some pbox
           ∧ (centreDist2 cx cy pbox < 22500)%Q
           ∧ ∀ pj pbox', [flatBox; uprightBox] !! pj = Some pbox' →
                         (centreDist2 cx cy pbox' < 22500)%Q →
                         (centreDist2 cx cy pbox <= centreDist2 cx cy pbox')%Q
                         ∧ (pj < pi →
                            (centreDist2 cx cy pbox < centreDist2 cx cy pbox')%Q)).
Proof.
  apply (nearest_previous_box 1000 [flatBox; uprightBox] [uprightBox; nearbyBox] 1
                              nearbyBox).
  reflexivity.
Defined.
